(** * The Monkey evaluator: a shallow embedding of [evaluator/evaluator.go]

    The Go source is a tree-walking evaluator.  Every Go function of the
    file becomes a definition of the same name.  Go pointers are addresses,
    the mutable environments live in a heap that is threaded through the
    evaluation, and a run-time panic of the Go program is an outcome of its
    own, distinct from the [object.Error] values the evaluator builds. *)

From Stdlib Require Import ZArith String List Lia.
From stdpp Require Import base option list gmap strings numbers.

Set Warnings "-register-all".
Set Default Proof Using "Type".

(** ** Package [ast]: the syntax tree the evaluator consumes *)

Module ast.

(** One constructor per node kind of [Eval]'s type switch.  A block
    ([*ast.BlockStatement]) is the list of its statements; the optional
    [Alternative] of an if expression is a nilable pointer in Go.
    [HashLiteral.Pairs] is a Go map from key expression to value
    expression ([evalHashLiteral] ranges over it with two variables and
    hands the first, the key, to [Eval]); the keys are the nodes
    themselves, so two entries with the same key text are two entries.  The
    list holds the entries in source order. *)
Inductive Node : Type :=
| Program (Statements : list Node)
| LetStatement (Name : string) (Value : Node)
| ReturnStatement (ReturnValue : Node)
| BlockStatement (Statements : list Node)
| ExpressionStatement (Expression : Node)
| IfExpression (Condition : Node) (Consequence : list Node)
    (Alternative : option (list Node))
| PrefixExpression (Operator : string) (Right : Node)
| InfixExpression (Left : Node) (Operator : string) (Right : Node)
| IntegerLiteral (Value : Z)
| StringLiteral (Value : string)
| Boolean (Value : bool)
| Identifier (Value : string)
| FunctionLiteral (Parameters : list string) (Body : list Node)
| CallExpression (Function : Node) (Arguments : list Node)
| ArrayLiteral (Elements : list Node)
| IndexExpression (Left : Node) (Index : Node)
| HashLiteral (Pairs : list (Node * Node)).

End ast.

(** ** Package [object]: run-time values *)

Module object.

Abbreviation ObjectType := string (only parsing).
Abbreviation ptr := N (only parsing).

(** Modelled from the spec: the type tags of package [object], which is not
    among the source files.  They are the strings the error messages
    print. *)
Definition INTEGER_OBJ : ObjectType := "INTEGER".
Definition BOOLEAN_OBJ : ObjectType := "BOOLEAN".
Definition NULL_OBJ : ObjectType := "NULL".
Definition RETURN_VALUE_OBJ : ObjectType := "RETURN_VALUE".
Definition ERROR_OBJ : ObjectType := "ERROR".
Definition FUNCTION_OBJ : ObjectType := "FUNCTION".
Definition STRING_OBJ : ObjectType := "STRING".
Definition BUILTIN_OBJ : ObjectType := "BUILTIN".
Definition ARRAY_OBJ : ObjectType := "ARRAY".
Definition HASH_OBJ : ObjectType := "HASH".

(** [object.HashKey]: a type tag and a 64-bit discriminant. *)
Abbreviation HashKey := (string * N)%type (only parsing).

(** Modelled from the spec: a value of the interface type [object.Object].
    [Nil] is the nil interface.  Every other value is a pointer to a
    struct; [ref] is the address of that struct, which is what Go's [==]
    on two interface values compares.  [Boolean] and [Null] carry no address:
    the evaluator only ever hands out the three singletons [TRUE], [FALSE]
    and [NULL].  A built-in is named by its key in the [builtins] table. *)
Inductive Object : Type :=
| Nil
| Integer (ref : ptr) (Value : Z)
| Boolean (Value : bool)
| String (ref : ptr) (Value : string)
| Null
| Array (ref : ptr) (Elements : list Object)
| Hash (ref : ptr) (Pairs : gmap HashKey (Object * Object))
| Function (ref : ptr) (Parameters : list string) (Body : list ast.Node)
    (Env : ptr)
| Builtin (name : string)
| ReturnValue (ref : ptr) (Value : Object)
| Error (ref : ptr) (Message : string).

(** The method [Type()].  Calling it on the nil interface panics: [None]. *)
Definition Type' (o : Object) : option ObjectType :=
  match o with
  | Nil => None
  | Integer _ _ => Some INTEGER_OBJ
  | Boolean _ => Some BOOLEAN_OBJ
  | String _ _ => Some STRING_OBJ
  | Null => Some NULL_OBJ
  | Array _ _ => Some ARRAY_OBJ
  | Hash _ _ => Some HASH_OBJ
  | Function _ _ _ _ => Some FUNCTION_OBJ
  | Builtin _ => Some BUILTIN_OBJ
  | ReturnValue _ _ => Some RETURN_VALUE_OBJ
  | Error _ _ => Some ERROR_OBJ
  end.

(** Go's [==] on two [object.Object] interface values: same dynamic type
    and same pointer. *)
Definition same (a b : Object) : bool :=
  match a, b with
  | Nil, Nil => true
  | Integer p _, Integer q _ => N.eqb p q
  | Boolean x, Boolean y => Bool.eqb x y
  | String p _, String q _ => N.eqb p q
  | Null, Null => true
  | Array p _, Array q _ => N.eqb p q
  | Hash p _, Hash q _ => N.eqb p q
  | Function p _ _ _, Function q _ _ _ => N.eqb p q
  | Builtin x, Builtin y => String.eqb x y
  | ReturnValue p _, ReturnValue q _ => N.eqb p q
  | Error p _, Error q _ => N.eqb p q
  | _, _ => false
  end.

(** Modelled from the spec: the [Hashable] interface.  Only integers,
    booleans and strings have a [HashKey()]; the key is the type tag with
    the integer as an unsigned 64-bit number, 1 or 0 for a boolean, or a
    content hash of the string, which is a parameter here. *)
Definition HashKeyOf (hashString : string -> N) (o : Object) : option HashKey :=
  match o with
  | Integer _ v => Some (INTEGER_OBJ, Z.to_N (v mod 2 ^ 64))
  | Boolean b => Some (BOOLEAN_OBJ, if b then 1%N else 0%N)
  | String _ s => Some (STRING_OBJ, hashString s)
  | _ => None
  end.

(** Modelled from the spec: [object.Environment], a table of bindings and
    an optional pointer to the enclosing environment. *)
Record Environment : Type := mkEnvironment {
  store : gmap string Object;
  outer : option ptr
}.

End object.

(** ** The Go run time: heap, panics and the evaluation monad *)

Module host.

(** The run-time panics the evaluator can raise. *)
Inductive Fault : Type :=
| NilDereference
| IndexOutOfRange
| DivideByZero
| TypeAssertion.

(** The environments allocated so far, and the next free address.  Values
    and environments share one address space. *)
Record State : Type := mkState {
  heap : gmap N object.Environment;
  next : N
}.

Inductive Outcome (A : Type) : Type :=
| Done (a : A) (s : State)
| Panicked (f : Fault)
| OutOfFuel.

Arguments Done {A} a s.
Arguments Panicked {A} f.
Arguments OutOfFuel {A}.

Definition M (A : Type) : Type := State -> Outcome A.

Definition ret {A : Type} (a : A) : M A := fun s => Done a s.

Definition bind {A B : Type} (m : M A) (k : A -> M B) : M B :=
  fun s =>
    match m s with
    | Done a s' => k a s'
    | Panicked f => Panicked f
    | OutOfFuel => OutOfFuel
    end.

Definition panic {A : Type} (f : Fault) : M A := fun _ => Panicked f.

Definition diverge {A : Type} : M A := fun _ => OutOfFuel.

(** [&T{...}]: a fresh address. *)
Definition alloc : M N :=
  fun s => Done (next s) (mkState (heap s) (N.succ (next s))).

End host.

Import host.

Notation "'let*' x ':=' m 'in' k" := (bind m (fun x => k))
  (at level 10, x name, m at level 200, k at level 200,
   format "'[v' 'let*'  x  ':='  m  'in' '/' k ']'").

(** ** [object.Environment]'s operations *)

Module environment.

(** Modelled from the spec: [NewEnclosedEnvironment(outer)], a fresh empty
    table chained to [outer]. *)
Definition NewEnclosedEnvironment (outer : N) : M N :=
  fun s =>
    Done (next s)
      (mkState
         (<[next s := object.mkEnvironment ∅ (Some outer)]> (heap s))
         (N.succ (next s))).

(** Modelled from the spec: [NewEnvironment()], the root environment. *)
Definition NewEnvironment : M N :=
  fun s =>
    Done (next s)
      (mkState (<[next s := object.mkEnvironment ∅ None]> (heap s))
         (N.succ (next s))).

(** Modelled from the spec: [Get] checks the local bindings, then walks the
    [outer] chain; [None] is Go's [ok == false].  A nil environment pointer
    panics.  [depth] bounds the walk. *)
Fixpoint walk (depth : nat) (e : N) (name : string) : M (option object.Object) :=
  fun s =>
    match heap s !! e with
    | None => Panicked NilDereference
    | Some env =>
        match object.store env !! name with
        | Some obj => Done (Some obj) s
        | None =>
            match object.outer env with
            | None => Done None s
            | Some o =>
                match depth with
                | O => OutOfFuel
                | S d => walk d o name s
                end
            end
        end
    end.

(** A chain never has more links than there are environments. *)
Definition Get (e : N) (name : string) : M (option object.Object) :=
  fun s => walk (size (heap s)) e name s.

(** Modelled from the spec: [Set] writes into the local table only. *)
Definition Set' (e : N) (name : string) (val : object.Object) : M unit :=
  fun s =>
    match heap s !! e with
    | None => Panicked NilDereference
    | Some env =>
        Done tt
          (mkState
             (<[e := object.mkEnvironment (<[name := val]> (object.store env))
                       (object.outer env)]> (heap s))
             (next s))
    end.

End environment.

(** ** Package [evaluator] *)

(** The three process-wide singletons. *)
Definition NULL : object.Object := object.Null.
Definition TRUE : object.Object := object.Boolean true.
Definition FALSE : object.Object := object.Boolean false.

(** [int64] arithmetic wraps around. *)
Definition wrap64 (z : Z) : Z := ((z + 2 ^ 63) mod 2 ^ 64 - 2 ^ 63)%Z.

Definition int64 (z : Z) : Prop := (- 2 ^ 63 <= z < 2 ^ 63)%Z.

(** A call of the method [Type()]: a nil receiver panics. *)
Definition typeOf (o : object.Object) : M string :=
  match object.Type' o with
  | Some t => ret t
  | None => panic NilDereference
  end.

Definition newError (message : string) : M object.Object :=
  let* p := alloc in
  ret (object.Error p message).

Definition isError (obj : object.Object) : bool :=
  match object.Type' obj with
  | Some t => String.eqb t object.ERROR_OBJ
  | None => false
  end.

Definition integer (number : Z) : M object.Object :=
  let* p := alloc in
  ret (object.Integer p number).

Definition boolean (boolean : bool) : object.Object :=
  if boolean then TRUE else FALSE.

Definition isTruthy (v : object.Object) : bool :=
  negb (object.same v FALSE) && negb (object.same v NULL).

Definition unwrapReturnValue (obj : object.Object) : object.Object :=
  match obj with
  | object.ReturnValue _ Value => Value
  | _ => obj
  end.

Definition evalBangOperator (value : object.Object) : object.Object :=
  if object.same value TRUE then FALSE
  else if object.same value FALSE then TRUE
  else if object.same value NULL then TRUE
  else FALSE.

Definition evalMinusOperator (right : object.Object) : M object.Object :=
  let* t := typeOf right in
  if negb (String.eqb t object.INTEGER_OBJ) then
    newError ("unknown operator: -" +:+ t)
  else
    match right with
    | object.Integer _ value =>
        let* p := alloc in
        ret (object.Integer p (wrap64 (- value)))
    | _ => panic TypeAssertion
    end.

Definition evalPrefixExpression (operator : string) (right : object.Object)
    : M object.Object :=
  if String.eqb operator "!" then ret (evalBangOperator right)
  else if String.eqb operator "-" then evalMinusOperator right
  else
    let* t := typeOf right in
    newError ("unkown operator: " +:+ operator +:+ t).

Definition evalIntegerInfixExpression (left : object.Object) (operator : string)
    (right : object.Object) : M object.Object :=
  match left, right with
  | object.Integer _ leftVal, object.Integer _ rightVal =>
      if String.eqb operator "+" then integer (wrap64 (leftVal + rightVal))
      else if String.eqb operator "-" then integer (wrap64 (leftVal - rightVal))
      else if String.eqb operator "*" then integer (wrap64 (leftVal * rightVal))
      else if String.eqb operator "/" then
        if Z.eqb rightVal 0 then panic DivideByZero
        else integer (wrap64 (Z.quot leftVal rightVal))
      else if String.eqb operator ">" then ret (boolean (Z.gtb leftVal rightVal))
      else if String.eqb operator "<" then ret (boolean (Z.ltb leftVal rightVal))
      else if String.eqb operator "==" then ret (boolean (Z.eqb leftVal rightVal))
      else if String.eqb operator "!=" then
        ret (boolean (negb (Z.eqb leftVal rightVal)))
      else
        let* lt := typeOf left in
        let* rt := typeOf right in
        newError ("unknown operator: " +:+ lt +:+ " " +:+ operator +:+ " " +:+ rt)
  | _, _ => panic TypeAssertion
  end.

Definition evalStringInfixExpression (left : object.Object) (operator : string)
    (right : object.Object) : M object.Object :=
  match left, right with
  | object.String _ leftVal, object.String _ rightVal =>
      if String.eqb operator "+" then
        let* p := alloc in
        ret (object.String p (leftVal +:+ rightVal))
      else
        let* lt := typeOf left in
        let* rt := typeOf right in
        newError ("unknown operator: " +:+ lt +:+ " " +:+ operator +:+ " " +:+ rt)
  | _, _ => panic TypeAssertion
  end.

Definition evalInfixExpression (left : object.Object) (operator : string)
    (right : object.Object) : M object.Object :=
  let* lt := typeOf left in
  let* rt := typeOf right in
  if negb (String.eqb lt rt) then
    newError ("type mismatch: " +:+ lt +:+ " " +:+ operator +:+ " " +:+ rt)
  else if String.eqb lt object.INTEGER_OBJ && String.eqb rt object.INTEGER_OBJ then
    evalIntegerInfixExpression left operator right
  else if String.eqb operator "==" then ret (boolean (object.same left right))
  else if String.eqb operator "!=" then
    ret (boolean (negb (object.same left right)))
  else if String.eqb lt object.STRING_OBJ && String.eqb rt object.STRING_OBJ then
    evalStringInfixExpression left operator right
  else
    newError ("unknown operator: " +:+ lt +:+ " " +:+ operator +:+ " " +:+ rt).

Definition evalArrayIndexExpression (array index : object.Object)
    : M object.Object :=
  match array, index with
  | object.Array _ Elements, object.Integer _ idx =>
      let max := (Z.of_nat (length Elements) - 1)%Z in
      if Z.ltb idx 0 || Z.gtb idx max then ret NULL
      else
        match Elements !! Z.to_nat idx with
        | Some element => ret element
        | None => panic IndexOutOfRange
        end
  | _, _ => panic TypeAssertion
  end.

Definition evalIndexExpression (left index : object.Object) : M object.Object :=
  let* lt := typeOf left in
  let* supported :=
    if String.eqb lt object.ARRAY_OBJ then
      let* it := typeOf index in
      ret (String.eqb it object.INTEGER_OBJ)
    else ret false in
  if supported then evalArrayIndexExpression left index
  else newError ("index operator not supported: " +:+ lt).

Section Evaluator.

(** The order in which Go's [range] visits the entries of the map
    [HashLiteral.Pairs].  The language leaves it unspecified. *)
Variable mapRange : list (ast.Node * ast.Node) -> list (ast.Node * ast.Node).

(** The table [builtins], which is not among the source files: the
    implementation of each built-in name. *)
Variable builtins : string -> option (list object.Object -> M object.Object).

(** The content hash behind [String.HashKey()]. *)
Variable hashString : string -> N.

Section Step.

(** The recursive calls of [Eval], one level down. *)
Variable Eval : ast.Node -> N -> M object.Object.

(** The loop of [extendedFunctionEnv]: [args[paramIdx]] panics past the end
    of [args]. *)
Fixpoint bindParameters (env : N) (Parameters : list string) (paramIdx : nat)
    (args : list object.Object) : M unit :=
  match Parameters with
  | [] => ret tt
  | param :: rest =>
      match args !! paramIdx with
      | None => panic IndexOutOfRange
      | Some arg =>
          let* _ := environment.Set' env param arg in
          bindParameters env rest (S paramIdx) args
      end
  end.

Definition extendedFunctionEnv (Parameters : list string) (Env : N)
    (args : list object.Object) : M N :=
  let* env := environment.NewEnclosedEnvironment Env in
  let* _ := bindParameters env Parameters 0 args in
  ret env.

Definition applyFunction (fn : object.Object) (args : list object.Object)
    : M object.Object :=
  match fn with
  | object.Function _ Parameters Body Env =>
      let* extendedEnv := extendedFunctionEnv Parameters Env args in
      let* evaluated := Eval (ast.BlockStatement Body) extendedEnv in
      ret (unwrapReturnValue evaluated)
  | object.Builtin name =>
      match builtins name with
      | Some Fn => Fn args
      | None => panic NilDereference
      end
  | _ =>
      let* t := typeOf fn in
      newError ("not a function: " +:+ t)
  end.

(** The loop of [evalExpressions], [result] being the slice built so far. *)
Fixpoint evalExpressionsFrom (exps : list ast.Node) (env : N)
    (result : list object.Object) : M (list object.Object) :=
  match exps with
  | [] => ret result
  | e :: rest =>
      let* evaluated := Eval e env in
      if isError evaluated then ret [evaluated]
      else evalExpressionsFrom rest env (result ++ [evaluated])
  end.

Definition evalExpressions (exps : list ast.Node) (env : N)
    : M (list object.Object) :=
  evalExpressionsFrom exps env [].

(** The loop of [evalHashLiteral] over the entries in the order [range]
    yields them: [inl] is an early [return], [inr] the map once the loop
    is over. *)
Fixpoint evalHashPairs (entries : list (ast.Node * ast.Node)) (env : N)
    (pairs : gmap object.HashKey (object.Object * object.Object))
    : M (object.Object + gmap object.HashKey (object.Object * object.Object)) :=
  match entries with
  | [] => ret (inr pairs)
  | (keyNode, valueNode) :: rest =>
      let* key := Eval keyNode env in
      if isError key then ret (inl key)
      else
        match object.HashKeyOf hashString key with
        | None =>
            let* t := typeOf key in
            let* e := newError ("unusable as hash key: " +:+ t) in
            ret (inl e)
        | Some hashed =>
            let* value := Eval valueNode env in
            if isError value then ret (inl value)
            else evalHashPairs rest env (<[hashed := (key, value)]> pairs)
        end
  end.

Definition evalHashLiteral (Pairs : list (ast.Node * ast.Node)) (env : N)
    : M object.Object :=
  let* r := evalHashPairs (mapRange Pairs) env ∅ in
  match r with
  | inl early => ret early
  | inr pairs =>
      let* p := alloc in
      ret (object.Hash p pairs)
  end.

Definition evalIdentifier (env : N) (name : string) : M object.Object :=
  let* found := environment.Get env name in
  match found with
  | Some val => ret val
  | None =>
      match builtins name with
      | Some _ => ret (object.Builtin name)
      | None => newError ("identifier not found: " +:+ name)
      end
  end.

Definition evalIfExpression (Condition : ast.Node) (Consequence : list ast.Node)
    (Alternative : option (list ast.Node)) (env : N) : M object.Object :=
  let* condition := Eval Condition env in
  if isError condition then ret condition
  else if isTruthy condition then Eval (ast.BlockStatement Consequence) env
  else
    match Alternative with
    | Some alternative => Eval (ast.BlockStatement alternative) env
    | None => ret NULL
    end.

(** The loop of [evalProgram], [last] being the variable of that name. *)
Fixpoint evalProgramFrom (Statements : list ast.Node) (env : N)
    (last : object.Object) : M object.Object :=
  match Statements with
  | [] => ret last
  | stmt :: rest =>
      let* last := Eval stmt env in
      match last with
      | object.ReturnValue _ Value => ret Value
      | object.Error _ _ => ret last
      | _ => evalProgramFrom rest env last
      end
  end.

Definition evalProgram (Statements : list ast.Node) (env : N) : M object.Object :=
  evalProgramFrom Statements env object.Nil.

(** The loop of [evalBlockStatement]: [last.Type()] is called on whatever
    the statement gave. *)
Fixpoint evalBlockStatementFrom (Statements : list ast.Node) (env : N)
    (last : object.Object) : M object.Object :=
  match Statements with
  | [] => ret last
  | stmt :: rest =>
      let* last := Eval stmt env in
      let* t := typeOf last in
      if String.eqb t object.ERROR_OBJ || String.eqb t object.RETURN_VALUE_OBJ
      then ret last
      else evalBlockStatementFrom rest env last
  end.

Definition evalBlockStatement (Statements : list ast.Node) (env : N)
    : M object.Object :=
  evalBlockStatementFrom Statements env object.Nil.

(** The body of [Eval]: its type switch. *)
Definition EvalNode (node : ast.Node) (env : N) : M object.Object :=
  match node with
  | ast.ReturnStatement ReturnValue =>
      let* value := Eval ReturnValue env in
      if isError value then ret value
      else
        let* p := alloc in
        ret (object.ReturnValue p value)
  | ast.BlockStatement Statements => evalBlockStatement Statements env
  | ast.IfExpression Condition Consequence Alternative =>
      evalIfExpression Condition Consequence Alternative env
  | ast.IntegerLiteral Value =>
      let* p := alloc in
      ret (object.Integer p Value)
  | ast.Program Statements => evalProgram Statements env
  | ast.Boolean Value => ret (boolean Value)
  | ast.ExpressionStatement Expression => Eval Expression env
  | ast.PrefixExpression Operator Right =>
      let* right := Eval Right env in
      if isError right then ret right
      else evalPrefixExpression Operator right
  | ast.InfixExpression Left Operator Right =>
      let* left := Eval Left env in
      if isError left then ret left
      else
        let* right := Eval Right env in
        if isError right then ret right
        else evalInfixExpression left Operator right
  | ast.LetStatement Name Value =>
      let* val := Eval Value env in
      if isError val then ret val
      else
        let* _ := environment.Set' env Name val in
        ret object.Nil
  | ast.Identifier Value => evalIdentifier env Value
  | ast.StringLiteral Value =>
      let* p := alloc in
      ret (object.String p Value)
  | ast.FunctionLiteral Parameters Body =>
      let* p := alloc in
      ret (object.Function p Parameters Body env)
  | ast.CallExpression Function Arguments =>
      let* function := Eval Function env in
      if isError function then ret function
      else
        let* args := evalExpressions Arguments env in
        match args with
        | [arg] => if isError arg then ret arg else applyFunction function args
        | _ => applyFunction function args
        end
  | ast.ArrayLiteral Elements =>
      let* elements := evalExpressions Elements env in
      let array :=
        let* p := alloc in
        ret (object.Array p elements) in
      match elements with
      | [element] => if isError element then ret element else array
      | _ => array
      end
  | ast.IndexExpression Left Index =>
      let* left := Eval Left env in
      if isError left then ret left
      else
        let* index := Eval Index env in
        if isError index then ret index
        else evalIndexExpression left index
  | ast.HashLiteral Pairs => evalHashLiteral Pairs env
  end.

End Step.

(** [Eval] itself.  [fuel] bounds the depth of the Go call stack, counted in
    nested calls of [Eval]. *)
Fixpoint Eval (fuel : nat) (node : ast.Node) (env : N) : M object.Object :=
  match fuel with
  | O => diverge
  | S fuel' => EvalNode (Eval fuel') node env
  end.

End Evaluator.

(** ** Running a statement list

    The hypotheses of the theorems about blocks and programs speak of the
    statements before the one of interest: [passes ok ev env stmts s] runs them
    in order from state [s] and gives the state they leave, provided each
    one gives a result that [ok] accepts. *)
Fixpoint passes (ok : object.Object -> bool)
    (ev : ast.Node -> N -> M object.Object) (env : N)
    (stmts : list ast.Node) (s : State) : option State :=
  match stmts with
  | [] => Some s
  | stmt :: rest =>
      match ev stmt env s with
      | Done v s1 => if ok v then passes ok ev env rest s1 else None
      | _ => None
      end
  end.

(** The results after which the loop of [evalBlockStatement] goes on to the
    next statement. *)
Definition continues (v : object.Object) : bool :=
  match object.Type' v with
  | Some t =>
      negb (String.eqb t object.ERROR_OBJ || String.eqb t object.RETURN_VALUE_OBJ)
  | None => false
  end.

(** The results after which the loop of [evalProgram] goes on to the next
    statement. *)
Definition proceeds (v : object.Object) : bool :=
  match v with
  | object.ReturnValue _ _ | object.Error _ _ => false
  | _ => true
  end.

(** The keys and values a hash literal's entries evaluate to, in the order
    given, provided none is an error and every key is hashable. *)
Fixpoint evalEntries (hashString : string -> N)
    (ev : ast.Node -> N -> M object.Object) (env : N)
    (entries : list (ast.Node * ast.Node)) (s : State)
    : option (list (object.Object * object.Object) * State) :=
  match entries with
  | [] => Some ([], s)
  | (keyNode, valueNode) :: rest =>
      match ev keyNode env s with
      | Done key s1 =>
          if isError key then None
          else if object.HashKeyOf hashString key is Some _ then
            match ev valueNode env s1 with
            | Done value s2 =>
                if isError value then None
                else
                  match evalEntries hashString ev env rest s2 with
                  | Some (kvs, s3) => Some ((key, value) :: kvs, s3)
                  | None => None
                  end
            | _ => None
            end
          else None
      | _ => None
      end
  end.

(** The parameters bound by a call: each name to the argument at its
    position, a later parameter of the same name winning. *)
Definition bindings (Parameters : list string) (args : list object.Object)
    : gmap string object.Object :=
  foldl (fun st xa => <[xa.1 := xa.2]> st) ∅ (zip Parameters args).

(** ** A concrete host, for running programs *)

(** [range] visiting the entries in source order, and in the opposite
    order. *)
Definition sourceOrder (entries : list (ast.Node * ast.Node))
    : list (ast.Node * ast.Node) := entries.

Definition reverseOrder (entries : list (ast.Node * ast.Node))
    : list (ast.Node * ast.Node) := reverse entries.

Definition noBuiltins (name : string)
    : option (list object.Object -> M object.Object) := None.

(** A stand-in content hash: the sum of the character codes. *)
Fixpoint codeSum (s : string) : N :=
  match s with
  | EmptyString => 0%N
  | String.String c rest => (Ascii.N_of_ascii c + codeSum rest)%N
  end.

(** The state of a fresh interpreter: the root environment at address 0. *)
Definition initial : State :=
  mkState {[ 0%N := object.mkEnvironment ∅ None ]} 1.

Definition run (order : list (ast.Node * ast.Node) -> list (ast.Node * ast.Node))
    (fuel : nat) (node : ast.Node) : Outcome object.Object :=
  (Eval order noBuiltins codeSum fuel node 0%N initial).

(** The value an evaluation ends with, if it ends with one. *)
Definition value {A : Type} (o : Outcome A) : option A :=
  match o with
  | Done a _ => Some a
  | _ => None
  end.

(** The state after one allocation. *)
Definition allocated (s : State) : State := mkState (heap s) (N.succ (next s)).

(** One round of the loop of [evalHashLiteral] on an evaluated key and
    value: [pairs[hashed] = object.HashPair{Key: key, Value: value}]. *)
Definition insertPair (hashString : string -> N)
    (pairs : gmap (string * N) (object.Object * object.Object))
    (kv : object.Object * object.Object)
    : gmap (string * N) (object.Object * object.Object) :=
  match object.HashKeyOf hashString kv.1 with
  | Some hashed => <[hashed := kv]> pairs
  | None => pairs
  end.

(** The map the loop has built once it has been through [kvs]. *)
Definition collected (hashString : string -> N)
    (kvs : list (object.Object * object.Object))
    : gmap (string * N) (object.Object * object.Object) :=
  foldl (insertPair hashString) ∅ kvs.

(** The hash literal [{"a": 1, "a": 2}]. *)
Definition duplicateKeys : ast.Node :=
  ast.HashLiteral
    [(ast.StringLiteral "a", ast.IntegerLiteral 1);
     (ast.StringLiteral "a", ast.IntegerLiteral 2)].

(** ** Fuel

    [extends m m']: wherever the computation [m] comes to an end, by a
    result or by a panic, [m'] comes to the same end. *)
Definition extends {A : Type} (m m' : M A) : Prop :=
  forall s, m s <> OutOfFuel -> m' s = m s.

(** ** Running an expression list

    [evalAll ev env exps s] evaluates the expressions in order from state
    [s] and gives their values and the state they leave, provided none of
    them is an Error. *)
Fixpoint evalAll (ev : ast.Node -> N -> M object.Object) (env : N)
    (exps : list ast.Node) (s : State)
    : option (list object.Object * State) :=
  match exps with
  | [] => Some ([], s)
  | e :: rest =>
      match ev e env s with
      | Done v s1 =>
          if isError v then None
          else
            match evalAll ev env rest s1 with
            | Some (vs, s2) => Some (v :: vs, s2)
            | None => None
            end
      | _ => None
      end
  end.

(** ** What an evaluation leaves in place

    [keeps s s']: every environment of [s] is still there in [s'], enclosed
    by the same environment, with every name it bound still bound, and the
    next free address has not gone back. *)
Definition keeps (s s' : State) : Prop :=
  (next s <= next s')%N
  /\ forall e E,
       heap s !! e = Some E ->
       exists E',
         heap s' !! e = Some E'
         /\ object.outer E' = object.outer E
         /\ forall name,
              is_Some (object.store E !! name) ->
              is_Some (object.store E' !! name).

(** Every environment lies below the next free address. *)
Definition fresh (s : State) : Prop :=
  forall e, is_Some (heap s !! e) -> (e < next s)%N.

(** A computation that, from a state where allocation is fresh, ends only in
    states that keep what was there and where allocation is fresh again. *)
Definition steady {A : Type} (m : M A) : Prop :=
  forall s a s', fresh s -> m s = Done a s' -> keeps s s' /\ fresh s'.

(** ** Nodes without calls

    [height node]: the nesting depth of the calls of [Eval] that evaluating
    [node] makes when no function is applied.  The body of a function
    literal is not evaluated where the literal is, and does not count. *)
Fixpoint height (node : ast.Node) : nat :=
  match node with
  | ast.Program Statements =>
      S (foldr (fun stmt h => Nat.max (height stmt) h) 0 Statements)
  | ast.LetStatement _ Value => S (height Value)
  | ast.ReturnStatement ReturnValue => S (height ReturnValue)
  | ast.BlockStatement Statements =>
      S (foldr (fun stmt h => Nat.max (height stmt) h) 0 Statements)
  | ast.ExpressionStatement Expression => S (height Expression)
  | ast.IfExpression Condition Consequence Alternative =>
      S (Nat.max (height Condition)
           (Nat.max
              (S (foldr (fun stmt h => Nat.max (height stmt) h) 0 Consequence))
              match Alternative with
              | Some alternative =>
                  S (foldr (fun stmt h => Nat.max (height stmt) h) 0 alternative)
              | None => 0
              end))
  | ast.PrefixExpression _ Right => S (height Right)
  | ast.InfixExpression Left _ Right => S (Nat.max (height Left) (height Right))
  | ast.IntegerLiteral _ => 1
  | ast.StringLiteral _ => 1
  | ast.Boolean _ => 1
  | ast.Identifier _ => 1
  | ast.FunctionLiteral _ _ => 1
  | ast.CallExpression Function Arguments =>
      S (Nat.max (height Function)
           (foldr (fun arg h => Nat.max (height arg) h) 0 Arguments))
  | ast.ArrayLiteral Elements =>
      S (foldr (fun element h => Nat.max (height element) h) 0 Elements)
  | ast.IndexExpression Left Index => S (Nat.max (height Left) (height Index))
  | ast.HashLiteral Pairs =>
      S (foldr
           (fun entry h =>
              match entry with
              | (keyNode, valueNode) =>
                  Nat.max (Nat.max (height keyNode) (height valueNode)) h
              end) 0 Pairs)
  end.

(** [callFree node]: evaluating [node] applies no function.  A function
    literal is only built, whatever its body holds. *)
Fixpoint callFree (node : ast.Node) : bool :=
  match node with
  | ast.Program Statements => forallb callFree Statements
  | ast.LetStatement _ Value => callFree Value
  | ast.ReturnStatement ReturnValue => callFree ReturnValue
  | ast.BlockStatement Statements => forallb callFree Statements
  | ast.ExpressionStatement Expression => callFree Expression
  | ast.IfExpression Condition Consequence Alternative =>
      callFree Condition && forallb callFree Consequence
      && match Alternative with
         | Some alternative => forallb callFree alternative
         | None => true
         end
  | ast.PrefixExpression _ Right => callFree Right
  | ast.InfixExpression Left _ Right => callFree Left && callFree Right
  | ast.IntegerLiteral _ => true
  | ast.StringLiteral _ => true
  | ast.Boolean _ => true
  | ast.Identifier _ => true
  | ast.FunctionLiteral _ _ => true
  | ast.CallExpression _ _ => false
  | ast.ArrayLiteral Elements => forallb callFree Elements
  | ast.IndexExpression Left Index => callFree Left && callFree Index
  | ast.HashLiteral Pairs =>
      forallb
        (fun entry =>
           match entry with
           | (keyNode, valueNode) => callFree keyNode && callFree valueNode
           end) Pairs
  end.

(** Every environment that has an enclosing one was allocated after it, and
    the enclosing one is there: the chains of [outer] links are finite. *)
Definition chained (s : State) : Prop :=
  forall e E o,
    heap s !! e = Some E ->
    object.outer E = Some o ->
    (o < e)%N /\ is_Some (heap s !! o).

(** A computation that, from a state whose chains are finite, comes to an
    end, and ends only in such states. *)
Definition ends {A : Type} (m : M A) : Prop :=
  forall s,
    chained s ->
    m s <> OutOfFuel /\ forall a s', m s = Done a s' -> chained s'.

(** The program [if (1 < 2) { [1, 2][0] } else { "no" }], of nesting
    depth 8. *)
Definition nested : ast.Node :=
  ast.Program
    [ast.ExpressionStatement
       (ast.IfExpression
          (ast.InfixExpression (ast.IntegerLiteral 1) "<" (ast.IntegerLiteral 2))
          [ast.ExpressionStatement
             (ast.IndexExpression
                (ast.ArrayLiteral [ast.IntegerLiteral 1; ast.IntegerLiteral 2])
                (ast.IntegerLiteral 0))]
          (Some [ast.ExpressionStatement (ast.StringLiteral "no")]))].

(** * Properties of the evaluator *)

(** ** The monad *)

Lemma bind_Done {A B : Type} (m : M A) (k : A -> M B) (s s' : State) (a : A) :
  m s = Done a s' -> bind m k s = k a s'.
Proof. unfold bind. intros ->. reflexivity. Qed.

Lemma bind_Panicked {A B : Type} (m : M A) (k : A -> M B) (s : State) (f : Fault) :
  m s = Panicked f -> bind m k s = Panicked f.
Proof. unfold bind. intros ->. reflexivity. Qed.

Lemma typeOf_Some (o : object.Object) (t : string) (s : State) :
  object.Type' o = Some t -> typeOf o s = Done t s.
Proof. unfold typeOf. intros ->. reflexivity. Qed.

Lemma newError_Done (message : string) (s : State) :
  newError message s = Done (object.Error (next s) message) (allocated s).
Proof. reflexivity. Qed.

Lemma integer_Done (number : Z) (s : State) :
  integer number s = Done (object.Integer (next s) number) (allocated s).
Proof. reflexivity. Qed.

(** ** Fuel

    More fuel never changes an evaluation that has come to an end: the
    results and the panics proved below at some fuel are those of the Go
    program. *)

Lemma extends_refl {A : Type} (m : M A) : extends m m.
Proof. intros s _. reflexivity. Qed.

Lemma extends_bind {A B : Type} (m m' : M A) (k k' : A -> M B) :
  extends m m' ->
  (forall a, extends (k a) (k' a)) ->
  extends (bind m k) (bind m' k').
Proof.
  intros Hm Hk s H. unfold bind in *.
  destruct (m s) as [a s1|f|] eqn:E.
  - rewrite (Hm s) by congruence. rewrite E. apply Hk. exact H.
  - rewrite (Hm s) by congruence. rewrite E. reflexivity.
  - contradiction.
Qed.

Ltac extends_step :=
  first
    [ apply extends_refl
    | apply extends_bind; [|intros ?]
    | match goal with
      | |- extends (if ?b then _ else _) _ => destruct b
      | |- extends (match ?x with _ => _ end) _ => destruct x
      end ].

Section Fuel.

Variable mapRange : list (ast.Node * ast.Node) -> list (ast.Node * ast.Node).
Variable builtins : string -> option (list object.Object -> M object.Object).
Variable hashString : string -> N.

Section OneStep.

Variables ev ev' : ast.Node -> N -> M object.Object.
Hypothesis Hev : forall node env, extends (ev node env) (ev' node env).

Lemma evalExpressionsFrom_extends (exps : list ast.Node) (env : N) :
  forall result,
    extends (evalExpressionsFrom ev exps env result)
      (evalExpressionsFrom ev' exps env result).
Proof using Hev.
  induction exps as [|e rest IH]; intros result; cbn [evalExpressionsFrom].
  - apply extends_refl.
  - apply extends_bind; [apply Hev|]. intros evaluated.
    destruct (isError evaluated); [apply extends_refl|apply IH].
Qed.

Lemma evalHashPairs_extends (entries : list (ast.Node * ast.Node)) (env : N) :
  forall pairs,
    extends (evalHashPairs hashString ev entries env pairs)
      (evalHashPairs hashString ev' entries env pairs).
Proof using Hev.
  induction entries as [|[keyNode valueNode] rest IH]; intros pairs;
    cbn [evalHashPairs].
  - apply extends_refl.
  - apply extends_bind; [apply Hev|]. intros key.
    destruct (isError key); [apply extends_refl|].
    destruct (object.HashKeyOf hashString key); [|apply extends_refl].
    apply extends_bind; [apply Hev|]. intros value.
    destruct (isError value); [apply extends_refl|apply IH].
Qed.

Lemma evalProgramFrom_extends (Statements : list ast.Node) (env : N) :
  forall last,
    extends (evalProgramFrom ev Statements env last)
      (evalProgramFrom ev' Statements env last).
Proof using Hev.
  induction Statements as [|stmt rest IH]; intros last; cbn [evalProgramFrom].
  - apply extends_refl.
  - apply extends_bind; [apply Hev|]. intros result.
    destruct result; first [apply extends_refl | apply IH].
Qed.

Lemma evalBlockStatementFrom_extends (Statements : list ast.Node) (env : N) :
  forall last,
    extends (evalBlockStatementFrom ev Statements env last)
      (evalBlockStatementFrom ev' Statements env last).
Proof using Hev.
  induction Statements as [|stmt rest IH]; intros last;
    cbn [evalBlockStatementFrom].
  - apply extends_refl.
  - apply extends_bind; [apply Hev|]. intros result.
    apply extends_bind; [apply extends_refl|]. intros t.
    destruct (_ || _); [apply extends_refl|apply IH].
Qed.

Lemma applyFunction_extends (fn : object.Object) (args : list object.Object) :
  extends (applyFunction builtins ev fn args) (applyFunction builtins ev' fn args).
Proof using Hev.
  destruct fn; try apply extends_refl.
  unfold applyFunction.
  apply extends_bind; [apply extends_refl|]. intros extendedEnv.
  apply extends_bind; [apply Hev|]. intros evaluated. apply extends_refl.
Qed.

Lemma EvalNode_extends (node : ast.Node) (env : N) :
  extends (EvalNode mapRange builtins hashString ev node env)
    (EvalNode mapRange builtins hashString ev' node env).
Proof using Hev.
  destruct node; unfold EvalNode; cbv zeta.
  - apply evalProgramFrom_extends.
  - apply extends_bind; [apply Hev|]. intros val. repeat extends_step.
  - apply extends_bind; [apply Hev|]. intros value. repeat extends_step.
  - apply evalBlockStatementFrom_extends.
  - apply Hev.
  - unfold evalIfExpression.
    apply extends_bind; [apply Hev|]. intros condition.
    destruct (isError condition); [apply extends_refl|].
    destruct (isTruthy condition); [apply Hev|].
    destruct Alternative; [apply Hev|apply extends_refl].
  - apply extends_bind; [apply Hev|]. intros right. repeat extends_step.
  - apply extends_bind; [apply Hev|]. intros left.
    destruct (isError left); [apply extends_refl|].
    apply extends_bind; [apply Hev|]. intros right. repeat extends_step.
  - apply extends_refl.
  - apply extends_refl.
  - apply extends_refl.
  - apply extends_refl.
  - apply extends_refl.
  - apply extends_bind; [apply Hev|]. intros function.
    destruct (isError function); [apply extends_refl|].
    apply extends_bind; [apply evalExpressionsFrom_extends|]. intros args.
    destruct args as [|arg [|arg' args]]; try apply applyFunction_extends.
    destruct (isError arg); [apply extends_refl|apply applyFunction_extends].
  - apply extends_bind; [apply evalExpressionsFrom_extends|]. intros elements.
    apply extends_refl.
  - apply extends_bind; [apply Hev|]. intros left.
    destruct (isError left); [apply extends_refl|].
    apply extends_bind; [apply Hev|]. intros index. repeat extends_step.
  - unfold evalHashLiteral.
    apply extends_bind; [apply evalHashPairs_extends|]. intros r.
    apply extends_refl.
Qed.

End OneStep.

Lemma Eval_extends (n : nat) :
  forall node env,
    extends (Eval mapRange builtins hashString n node env)
      (Eval mapRange builtins hashString (S n) node env).
Proof.
  induction n as [|n IH]; intros node env.
  - intros s H. contradiction H. reflexivity.
  - change (extends
              (EvalNode mapRange builtins hashString
                 (Eval mapRange builtins hashString n) node env)
              (EvalNode mapRange builtins hashString
                 (Eval mapRange builtins hashString (S n)) node env)).
    apply EvalNode_extends. exact IH.
Qed.

(** An evaluation that ends with fuel [n] ends the same way with any fuel
    from [n] on. *)
Lemma Eval_fuel (n m : nat) (node : ast.Node) (env : N) :
  n <= m ->
  extends (Eval mapRange builtins hashString n node env)
    (Eval mapRange builtins hashString m node env).
Proof.
  induction 1 as [|m Hle IH].
  - apply extends_refl.
  - intros s H. rewrite (Eval_extends m node env s).
    + apply IH. exact H.
    + rewrite (IH s H). exact H.
Qed.

End Fuel.

(** ** 64-bit arithmetic *)

Lemma wrap64_int64 (z : Z) : int64 (wrap64 z).
Proof.
  unfold int64, wrap64.
  pose proof (Z.mod_pos_bound (z + 2 ^ 63) (2 ^ 64) ltac:(lia)). lia.
Qed.

Lemma wrap64_exact (z : Z) : int64 z -> wrap64 z = z.
Proof.
  unfold int64, wrap64. intros H.
  rewrite Z.mod_small by lia. lia.
Qed.

Lemma wrap64_congruent (z : Z) : (wrap64 z mod 2 ^ 64 = z mod 2 ^ 64)%Z.
Proof.
  unfold wrap64.
  rewrite Zminus_mod_idemp_l.
  f_equal. lia.
Qed.

Lemma quot_int64 (a b : Z) :
  int64 a -> int64 b -> b <> 0%Z -> ~ (a = (- 2 ^ 63)%Z /\ b = (-1)%Z) ->
  int64 (Z.quot a b).
Proof.
  unfold int64. intros Ha Hb Hb0 Hov.
  assert (Habs : (Z.abs (Z.quot a b) <= Z.abs a)%Z).
  { rewrite <- Z.quot_abs by lia.
    apply Z.quot_le_upper_bound; [lia|].
    assert (1 <= Z.abs b)%Z by lia. nia. }
  destruct (Z.eq_dec b (-1)%Z) as [->|Hb1].
  - change (-1)%Z with (- (1))%Z.
    rewrite Z.quot_opp_r by lia. rewrite Z.quot_1_r. lia.
  - destruct (Z.eq_dec a (- 2 ^ 63)%Z) as [->|Ha1]; [|lia].
    destruct (Z.eq_dec b 1%Z) as [->|Hb2].
    + rewrite Z.quot_1_r. lia.
    + assert (Hq : (Z.abs (Z.quot (- 2 ^ 63) b) <= Z.quot (2 ^ 63) 2)%Z).
      { rewrite <- Z.quot_abs by lia.
        replace (Z.abs (- 2 ^ 63)%Z) with (2 ^ 63)%Z by lia.
        apply Z.quot_le_compat_l; lia. }
      change (Z.quot (2 ^ 63) 2)%Z with (2 ^ 62)%Z in Hq. lia.
Qed.

(** ** Integer arithmetic *)

(** C6.  On two integers the operators [+], [-] and [*] give a fresh Integer
    holding the 64-bit (wrapping) sum, difference and product.  With a
    divisor other than zero, [/] gives the quotient truncated toward zero,
    which is exact except for the one overflowing pair, the least integer
    divided by -1.  Division by zero is a panic of the Go run time, not an
    Error value. *)
Theorem integer_infix_arithmetic (p q : N) (a b : Z) (s : State) :
  int64 a -> int64 b ->
  evalInfixExpression (object.Integer p a) "+" (object.Integer q b) s
    = Done (object.Integer (next s) (wrap64 (a + b))) (allocated s)
  /\ evalInfixExpression (object.Integer p a) "-" (object.Integer q b) s
    = Done (object.Integer (next s) (wrap64 (a - b))) (allocated s)
  /\ evalInfixExpression (object.Integer p a) "*" (object.Integer q b) s
    = Done (object.Integer (next s) (wrap64 (a * b))) (allocated s)
  /\ (b <> 0%Z ->
      evalInfixExpression (object.Integer p a) "/" (object.Integer q b) s
        = Done (object.Integer (next s) (wrap64 (Z.quot a b))) (allocated s)
      /\ (~ (a = (- 2 ^ 63)%Z /\ b = (-1)%Z) -> wrap64 (Z.quot a b) = Z.quot a b))
  /\ (b = 0%Z ->
      evalInfixExpression (object.Integer p a) "/" (object.Integer q b) s
        = Panicked DivideByZero).
Proof.
  intros Ha Hb.
  split; [reflexivity|]. split; [reflexivity|]. split; [reflexivity|].
  split.
  - intros Hb0. split.
    + apply Z.eqb_neq in Hb0.
      unfold evalInfixExpression, evalIntegerInfixExpression, bind, typeOf; simpl.
      rewrite Hb0. reflexivity.
    + intros Hov. apply wrap64_exact, quot_int64; assumption.
  - intros ->. reflexivity.
Qed.

(** [7 / -2] is [-3]: the quotient is truncated toward zero. *)
Lemma integer_infix_arithmetic_witness :
  evalInfixExpression (object.Integer 1 7) "/" (object.Integer 2 (-2)) initial
  = Done (object.Integer 1 (-3)) (allocated initial).
Proof.
  refine (proj1 (proj1 (proj2 (proj2 (proj2
            (integer_infix_arithmetic 1 2 7 (-2) initial _ _)))) _)).
  - unfold int64. lia.
  - unfold int64. lia.
  - discriminate.
Defined.

(** The one overflowing quotient wraps around, and a zero divisor panics, in
    whole programs too. *)
Example integer_division_edge_cases :
  evalInfixExpression (object.Integer 1 (- 2 ^ 63)) "/" (object.Integer 2 (-1))
      initial
    = Done (object.Integer 1 (- 2 ^ 63)) (allocated initial)
  /\ run sourceOrder 4
       (ast.Program
          [ast.ExpressionStatement
             (ast.InfixExpression (ast.IntegerLiteral 1) "/"
                (ast.IntegerLiteral 0))])
    = Panicked DivideByZero.
Proof. split; reflexivity. Qed.

(** ** Indexing *)

(** C5.  Indexing an array of length [n] with the integer [i] gives the
    element at position [i] when [0 <= i <= n - 1], and the [NULL] singleton,
    which is no Error value, when [i < 0] or [i >= n]. *)
Theorem array_index_in_and_out_of_range (p q : N)
    (Elements : list object.Object) (i : Z) (s : State) :
  ((0 <= i <= Z.of_nat (length Elements) - 1)%Z ->
     exists element,
       Elements !! Z.to_nat i = Some element
       /\ evalIndexExpression (object.Array p Elements) (object.Integer q i) s
          = Done element s)
  /\ ((i < 0 \/ i >= Z.of_nat (length Elements))%Z ->
       evalIndexExpression (object.Array p Elements) (object.Integer q i) s
         = Done NULL s
       /\ isError NULL = false).
Proof.
  unfold evalIndexExpression, evalArrayIndexExpression, bind, typeOf; simpl.
  split.
  - intros Hi.
    destruct (lookup_lt_is_Some_2 Elements (Z.to_nat i)) as [element He]; [lia|].
    exists element. split; [exact He|].
    replace (Z.ltb i 0) with false by (symmetry; apply Z.ltb_ge; lia).
    replace (Z.gtb i (Z.of_nat (length Elements) - 1)) with false
      by (symmetry; rewrite Z.gtb_ltb; apply Z.ltb_ge; lia).
    simpl. rewrite He. reflexivity.
  - intros Hi. split; [|reflexivity].
    destruct Hi as [Hi|Hi].
    + replace (Z.ltb i 0) with true by (symmetry; apply Z.ltb_lt; lia).
      reflexivity.
    + replace (Z.gtb i (Z.of_nat (length Elements) - 1)) with true
        by (symmetry; rewrite Z.gtb_ltb; apply Z.ltb_lt; lia).
      rewrite orb_true_r. reflexivity.
Qed.

(** [[10, 20, 30][1]] is 20 and [[10, 20, 30][3]] is [NULL]. *)
Lemma array_index_in_and_out_of_range_witness :
  evalIndexExpression
      (object.Array 4 [object.Integer 1 10; object.Integer 2 20; object.Integer 3 30])
      (object.Integer 5 3) initial
  = Done NULL initial.
Proof.
  refine (proj1 (proj2 (array_index_in_and_out_of_range 4 5
                          [object.Integer 1 10; object.Integer 2 20;
                           object.Integer 3 30] 3 initial) _)).
  right. cbn. lia.
Defined.

Example array_index_program :
  run sourceOrder 5
    (ast.Program
       [ast.ExpressionStatement
          (ast.IndexExpression
             (ast.ArrayLiteral
                [ast.IntegerLiteral 10; ast.IntegerLiteral 20; ast.IntegerLiteral 30])
             (ast.IntegerLiteral 1))])
    = Done (object.Integer 2 20) (mkState (heap initial) 6)
  /\ run sourceOrder 5
       (ast.Program
          [ast.ExpressionStatement
             (ast.IndexExpression
                (ast.ArrayLiteral
                   [ast.IntegerLiteral 10; ast.IntegerLiteral 20;
                    ast.IntegerLiteral 30])
                (ast.PrefixExpression "-" (ast.IntegerLiteral 1)))])
    = Done NULL (mkState (heap initial) 7).
Proof. split; reflexivity. Qed.

Lemma evalIndexExpression_not_supported (p : N) (Elements : list object.Object)
    (index : object.Object) (t : string) (s : State) :
  object.Type' index = Some t -> t <> object.INTEGER_OBJ ->
  evalIndexExpression (object.Array p Elements) index s
    = Done (object.Error (next s) "index operator not supported: ARRAY")
        (allocated s).
Proof.
  intros Ht Hne. apply String.eqb_neq in Hne.
  cbv [evalIndexExpression bind typeOf ret].
  change (object.Type' (object.Array p Elements)) with (Some object.ARRAY_OBJ).
  cbv beta iota.
  rewrite String.eqb_refl, Ht, Hne. reflexivity.
Qed.

(** ** Truthiness *)

Lemma evalBangOperator_twice (v : object.Object) :
  evalBangOperator (evalBangOperator v) = boolean (isTruthy v).
Proof. destruct v as [| | [|] | | | | | | | |]; reflexivity. Qed.

Lemma isTruthy_true (v : object.Object) :
  isTruthy v = true <-> v <> FALSE /\ v <> NULL.
Proof.
  unfold FALSE, NULL.
  destruct v as [| | [|] | | | | | | | |]; cbn; split;
    try (intros _; split; discriminate);
    try discriminate;
    intros [H1 H2]; congruence.
Qed.

Lemma isTruthy_false (v : object.Object) :
  isTruthy v = false <-> v = FALSE \/ v = NULL.
Proof.
  unfold FALSE, NULL.
  destruct v as [| | [|] | | | | | | | |]; cbn; split;
    try discriminate; try (intros [H|H]; discriminate); auto.
Qed.

Lemma isError_evalBangOperator (v : object.Object) :
  isError (evalBangOperator v) = false.
Proof. destruct v as [| | [|] | | | | | | | |]; reflexivity. Qed.

Section Properties.

Variable mapRange : list (ast.Node * ast.Node) -> list (ast.Node * ast.Node).
Variable builtins : string -> option (list object.Object -> M object.Object).
Variable hashString : string -> N.

Lemma Eval_S (n : nat) (node : ast.Node) (env : N) :
  Eval mapRange builtins hashString (S n) node env
  = EvalNode mapRange builtins hashString
      (Eval mapRange builtins hashString n) node env.
Proof. reflexivity. Qed.

Lemma Eval_bang (n : nat) (e : ast.Node) (env : N) (s s' : State)
    (v : object.Object) :
  Eval mapRange builtins hashString n e env s = Done v s' ->
  isError v = false ->
  Eval mapRange builtins hashString (S n) (ast.PrefixExpression "!" e) env s
    = Done (evalBangOperator v) s'.
Proof.
  intros He Hv. rewrite Eval_S. unfold EvalNode.
  rewrite (bind_Done _ _ _ _ _ He), Hv. reflexivity.
Qed.

(** C8.  When [e] evaluates to a value [v] that is no Error, [!!e] evaluates
    to the [TRUE] singleton if [v] is neither the [FALSE] nor the [NULL]
    singleton, and to the [FALSE] singleton if it is one of them.  The
    deciding predicate is [isTruthy], the one the if expression branches
    on. *)
Theorem double_negation_is_truthiness (n : nat) (e : ast.Node) (env : N)
    (s s' : State) (v : object.Object) :
  Eval mapRange builtins hashString n e env s = Done v s' ->
  isError v = false ->
  Eval mapRange builtins hashString (S (S n))
      (ast.PrefixExpression "!" (ast.PrefixExpression "!" e)) env s
    = Done (boolean (isTruthy v)) s'
  /\ (v <> FALSE /\ v <> NULL -> boolean (isTruthy v) = TRUE)
  /\ (v = FALSE \/ v = NULL -> boolean (isTruthy v) = FALSE)
  /\ (boolean (isTruthy v) = TRUE -> v <> FALSE /\ v <> NULL)
  /\ (forall Consequence Alternative,
        Eval mapRange builtins hashString (S n)
            (ast.IfExpression e Consequence Alternative) env s
        = if isTruthy v
          then Eval mapRange builtins hashString n
                 (ast.BlockStatement Consequence) env s'
          else match Alternative with
               | Some alternative =>
                   Eval mapRange builtins hashString n
                     (ast.BlockStatement alternative) env s'
               | None => Done NULL s'
               end).
Proof.
  intros He Hv. split; [|split; [|split; [|split]]].
  - rewrite <- evalBangOperator_twice.
    apply Eval_bang; [|apply isError_evalBangOperator].
    apply Eval_bang; assumption.
  - intros H. apply isTruthy_true in H. rewrite H. reflexivity.
  - intros H. apply isTruthy_false in H. rewrite H. reflexivity.
  - intros H. apply isTruthy_true.
    destruct (isTruthy v); [reflexivity|discriminate].
  - intros Consequence Alternative.
    rewrite Eval_S. unfold EvalNode, evalIfExpression.
    rewrite (bind_Done _ _ _ _ _ He), Hv.
    destruct (isTruthy v); [reflexivity|].
    destruct Alternative; reflexivity.
Qed.

(** C9.  When the container of an index expression evaluates to an array
    and the index to a value that is neither an Integer nor an Error, the
    result is a fresh Error whose message is
    [index operator not supported: ARRAY]: it names the container's type,
    whatever the type [t] of the index is. *)
Theorem index_error_names_container (n : nat) (Left Index : ast.Node) (env : N)
    (s s1 s2 : State) (p : N) (Elements : list object.Object)
    (index : object.Object) (t : string) :
  Eval mapRange builtins hashString n Left env s
    = Done (object.Array p Elements) s1 ->
  Eval mapRange builtins hashString n Index env s1 = Done index s2 ->
  object.Type' index = Some t ->
  t <> object.INTEGER_OBJ ->
  t <> object.ERROR_OBJ ->
  Eval mapRange builtins hashString (S n) (ast.IndexExpression Left Index) env s
    = Done (object.Error (next s2) "index operator not supported: ARRAY")
        (allocated s2).
Proof.
  intros HL HI Ht Hint Herr.
  rewrite Eval_S. unfold EvalNode.
  rewrite (bind_Done _ _ _ _ _ HL).
  change (isError (object.Array p Elements)) with false. cbv iota.
  rewrite (bind_Done _ _ _ _ _ HI).
  assert (Hne : isError index = false).
  { unfold isError. rewrite Ht. apply String.eqb_neq. exact Herr. }
  rewrite Hne.
  eapply evalIndexExpression_not_supported; eassumption.
Qed.

End Properties.

(** [!!0] is [true]: zero is truthy. *)
Lemma double_negation_is_truthiness_witness :
  run sourceOrder 3
    (ast.PrefixExpression "!" (ast.PrefixExpression "!" (ast.IntegerLiteral 0)))
  = Done TRUE (allocated initial).
Proof.
  exact (proj1 (double_negation_is_truthiness sourceOrder noBuiltins codeSum
                  1 (ast.IntegerLiteral 0) 0%N initial (allocated initial)
                  (object.Integer 1 0) eq_refl eq_refl)).
Defined.

(** [[1, 2][true]]. *)
Lemma index_error_names_container_witness :
  run sourceOrder 3
    (ast.IndexExpression
       (ast.ArrayLiteral [ast.IntegerLiteral 1; ast.IntegerLiteral 2])
       (ast.Boolean true))
  = Done (object.Error 4 "index operator not supported: ARRAY")
      (mkState (heap initial) 5).
Proof.
  refine (index_error_names_container sourceOrder noBuiltins codeSum 2
            (ast.ArrayLiteral [ast.IntegerLiteral 1; ast.IntegerLiteral 2])
            (ast.Boolean true) 0%N initial (mkState (heap initial) 4)
            (mkState (heap initial) 4) 3%N
            [object.Integer 1 1; object.Integer 2 2] TRUE object.BOOLEAN_OBJ
            eq_refl eq_refl eq_refl _ _); discriminate.
Defined.

(** ** Equality of values *)

(** C2, as the code has it.  For [==] and [!=] on two operands of one type
    other than Integer the result is the Boolean of the identity comparison
    of the operands, negated for [!=].  On operands of different types the
    result is the [type mismatch] Error, for these two operators as for any
    other: the type check comes first in the dispatch. *)
Theorem equality_is_identity_within_one_type (left right : object.Object)
    (operator lt rt : string) (s : State) :
  object.Type' left = Some lt ->
  object.Type' right = Some rt ->
  operator = "==" \/ operator = "!=" ->
  (lt <> rt ->
     evalInfixExpression left operator right s
     = Done (object.Error (next s)
               ("type mismatch: " +:+ lt +:+ " " +:+ operator +:+ " " +:+ rt))
         (allocated s))
  /\ (lt = rt -> lt <> object.INTEGER_OBJ ->
      evalInfixExpression left operator right s
      = Done (boolean (if String.eqb operator "=="
                       then object.same left right
                       else negb (object.same left right))) s).
Proof.
  intros Hl Hr Hop.
  unfold evalInfixExpression.
  rewrite (bind_Done _ _ _ _ _ (typeOf_Some _ _ s Hl)).
  rewrite (bind_Done _ _ _ _ _ (typeOf_Some _ _ s Hr)).
  split.
  - intros Hne. apply String.eqb_neq in Hne. rewrite Hne. reflexivity.
  - intros <- Hint. apply String.eqb_neq in Hint.
    rewrite String.eqb_refl, Hint.
    destruct Hop as [-> | ->]; reflexivity.
Qed.

(** [true == true] is [true]; the two operands are the one singleton. *)
Lemma equality_is_identity_within_one_type_witness :
  evalInfixExpression TRUE "==" TRUE initial = Done TRUE initial.
Proof.
  refine (proj2 (equality_is_identity_within_one_type TRUE TRUE "=="
                   object.BOOLEAN_OBJ object.BOOLEAN_OBJ initial
                   eq_refl eq_refl (or_introl eq_refl)) eq_refl _).
  discriminate.
Defined.

(** C2 fails as stated: a Boolean compared with Null, by the operator and
    in the program [true == if (false) { 1 }], is a [type mismatch] Error
    and no Boolean. *)
Lemma boolean_equals_null_is_type_mismatch :
  evalInfixExpression TRUE "==" NULL initial
    = Done (object.Error 1 "type mismatch: BOOLEAN == NULL") (allocated initial)
  /\ run sourceOrder 5
       (ast.Program
          [ast.ExpressionStatement
             (ast.InfixExpression (ast.Boolean true) "=="
                (ast.IfExpression (ast.Boolean false)
                   [ast.ExpressionStatement (ast.IntegerLiteral 1)] None))])
    = Done (object.Error 1 "type mismatch: BOOLEAN == NULL") (allocated initial).
Proof. split; reflexivity. Qed.

(** Identity is not structural equality: a string bound to a name equals
    itself, two string literals of the same text differ. *)
Example string_identity :
  run sourceOrder 5
    (ast.Program
       [ast.LetStatement "s" (ast.StringLiteral "a");
        ast.ExpressionStatement
          (ast.InfixExpression (ast.Identifier "s") "==" (ast.Identifier "s"))])
  = Done TRUE
      (mkState {[ 0%N := object.mkEnvironment {[ "s" := object.String 1 "a" ]} None ]} 2)
  /\ evalInfixExpression (object.String 1 "a") "==" (object.String 2 "a") initial
     = Done FALSE initial.
Proof. split; [vm_compute|]; reflexivity. Qed.

(** ** Let statements inside a block *)

Section LetInBlock.

Variable mapRange : list (ast.Node * ast.Node) -> list (ast.Node * ast.Node).
Variable builtins : string -> option (list object.Object -> M object.Object).
Variable hashString : string -> N.

(** A let statement whose value is no Error binds the name and gives the
    nil interface. *)
Lemma Eval_let (n : nat) (Name : string) (Value : ast.Node) (env : N)
    (s s1 : State) (val : object.Object) (E : object.Environment) :
  Eval mapRange builtins hashString n Value env s = Done val s1 ->
  isError val = false ->
  heap s1 !! env = Some E ->
  Eval mapRange builtins hashString (S n) (ast.LetStatement Name Value) env s
    = Done object.Nil
        (mkState
           (<[env := object.mkEnvironment (<[Name := val]> (object.store E))
                       (object.outer E)]> (heap s1))
           (next s1)).
Proof.
  intros Hv Hval HE. rewrite Eval_S. unfold EvalNode.
  rewrite (bind_Done _ _ _ _ _ Hv), Hval.
  unfold bind, environment.Set'. rewrite HE. reflexivity.
Qed.

(** Whatever follows it, a let statement in a block ends the evaluation of
    the block in a panic: the loop calls [Type()] on the nil interface the
    let statement gave. *)
Lemma block_let_panics (n : nat) (Name : string) (Value : ast.Node)
    (rest : list ast.Node) (env : N) (s s1 : State) (val : object.Object)
    (E : object.Environment) :
  Eval mapRange builtins hashString n Value env s = Done val s1 ->
  isError val = false ->
  heap s1 !! env = Some E ->
  Eval mapRange builtins hashString (S (S n))
      (ast.BlockStatement (ast.LetStatement Name Value :: rest)) env s
    = Panicked NilDereference.
Proof.
  intros Hv Hval HE. rewrite Eval_S.
  unfold EvalNode, evalBlockStatement, evalBlockStatementFrom.
  rewrite (bind_Done _ _ _ _ _ (Eval_let n Name Value env s s1 val E Hv Hval HE)).
  reflexivity.
Qed.

End LetInBlock.

(** C3, at its own example.  The block [{ let a = 5; a }], evaluated directly
    and as the consequence of [if (true) { let a = 5; a }], does not give
    Integer 5: with any fuel that lets the evaluation come to an end, it
    panics on a nil dereference after the let statement. *)
Theorem block_with_let_statement_panics (k : nat) :
  run sourceOrder (3 + k)
    (ast.BlockStatement
       [ast.LetStatement "a" (ast.IntegerLiteral 5);
        ast.ExpressionStatement (ast.Identifier "a")])
    = Panicked NilDereference
  /\ run sourceOrder (6 + k)
       (ast.Program
          [ast.ExpressionStatement
             (ast.IfExpression (ast.Boolean true)
                [ast.LetStatement "a" (ast.IntegerLiteral 5);
                 ast.ExpressionStatement (ast.Identifier "a")] None)])
    = Panicked NilDereference.
Proof.
  unfold run. split.
  - rewrite (Eval_fuel sourceOrder noBuiltins codeSum 3 (3 + k) _ _
               ltac:(lia) initial).
    + exact (block_let_panics sourceOrder noBuiltins codeSum 1 "a"
               (ast.IntegerLiteral 5)
               [ast.ExpressionStatement (ast.Identifier "a")] 0%N initial
               (allocated initial) (object.Integer 1 5)
               (object.mkEnvironment ∅ None) eq_refl eq_refl eq_refl).
    + discriminate.
  - rewrite (Eval_fuel sourceOrder noBuiltins codeSum 6 (6 + k) _ _
               ltac:(lia) initial).
    + reflexivity.
    + discriminate.
Qed.

(** ** Statement sequences *)

Section Sequences.

Variable ev : ast.Node -> N -> M object.Object.

(** The statements that [proceeds] accepts leave the loop of [evalProgram]
    at the next statement, in the state [passes] computes. *)
Lemma evalProgramFrom_passes (env : N) (pre : list ast.Node) (stmt : ast.Node)
    (post : list ast.Node) (last : object.Object) (s s1 : State) :
  passes proceeds ev env pre s = Some s1 ->
  evalProgramFrom ev (pre ++ stmt :: post) env last s
  = evalProgramFrom ev (stmt :: post) env object.Nil s1.
Proof.
  revert last s. induction pre as [|a pre IH]; intros last s Hpre.
  - injection Hpre as <-. reflexivity.
  - cbn [passes] in Hpre. cbn [app evalProgramFrom].
    destruct (ev a env s) as [v s'| |] eqn:Ha; try discriminate.
    rewrite (bind_Done _ _ _ _ _ Ha).
    destruct (proceeds v) eqn:Hv; [|discriminate].
    destruct v; try discriminate; apply IH; exact Hpre.
Qed.

(** The same for the loop of [evalBlockStatement] and [continues]. *)
Lemma evalBlockStatementFrom_passes (env : N) (pre : list ast.Node)
    (stmt : ast.Node) (post : list ast.Node) (last : object.Object)
    (s s1 : State) :
  passes continues ev env pre s = Some s1 ->
  evalBlockStatementFrom ev (pre ++ stmt :: post) env last s
  = evalBlockStatementFrom ev (stmt :: post) env object.Nil s1.
Proof.
  revert last s. induction pre as [|a pre IH]; intros last s Hpre.
  - injection Hpre as <-. reflexivity.
  - cbn [passes] in Hpre. cbn [app evalBlockStatementFrom].
    destruct (ev a env s) as [v s'| |] eqn:Ha; try discriminate.
    rewrite (bind_Done _ _ _ _ _ Ha).
    destruct (continues v) eqn:Hv; [|discriminate].
    unfold continues in Hv.
    destruct (object.Type' v) as [t|] eqn:Ht; [|discriminate].
    rewrite (bind_Done _ _ _ _ _ (typeOf_Some _ _ s' Ht)).
    apply negb_true_iff in Hv. rewrite Hv.
    apply IH. exact Hpre.
Qed.

End Sequences.

Section Signals.

Variable mapRange : list (ast.Node * ast.Node) -> list (ast.Node * ast.Node).
Variable builtins : string -> option (list object.Object -> M object.Object).
Variable hashString : string -> N.

(** A return statement wraps the value of its operand, unless that is an
    Error. *)
Lemma Eval_return (n : nat) (operand : ast.Node) (env : N) (s s1 : State)
    (val : object.Object) :
  Eval mapRange builtins hashString n operand env s = Done val s1 ->
  isError val = false ->
  Eval mapRange builtins hashString (S n) (ast.ReturnStatement operand) env s
    = Done (object.ReturnValue (next s1) val) (allocated s1).
Proof.
  intros Hv Hval. rewrite Eval_S. unfold EvalNode.
  rewrite (bind_Done _ _ _ _ _ Hv), Hval. reflexivity.
Qed.

(** C10.  A program whose statements give neither an Error nor a
    ReturnValue and whose last statement is a let statement evaluates to the
    nil interface, which is not the [NULL] singleton; the let statement has
    bound its name in the environment. *)
Theorem program_ending_in_let_gives_nil (n : nat) (pre : list ast.Node)
    (Name : string) (Value : ast.Node) (env : N) (s s1 s2 : State)
    (val : object.Object) (E : object.Environment) :
  passes proceeds (Eval mapRange builtins hashString (S n)) env pre s = Some s1 ->
  Eval mapRange builtins hashString n Value env s1 = Done val s2 ->
  isError val = false ->
  heap s2 !! env = Some E ->
  Eval mapRange builtins hashString (S (S n))
      (ast.Program (pre ++ [ast.LetStatement Name Value])) env s
    = Done object.Nil
        (mkState
           (<[env := object.mkEnvironment (<[Name := val]> (object.store E))
                       (object.outer E)]> (heap s2))
           (next s2))
  /\ object.same object.Nil NULL = false
  /\ object.Type' object.Nil = None.
Proof.
  intros Hpre Hv Hval HE. split; [|split; reflexivity].
  rewrite Eval_S. unfold EvalNode, evalProgram.
  rewrite (evalProgramFrom_passes _ _ _ _ _ _ _ _ Hpre).
  cbn [evalProgramFrom].
  rewrite (bind_Done _ _ _ _ _
             (Eval_let mapRange builtins hashString n Name Value env s1 s2 val E
                Hv Hval HE)).
  reflexivity.
Qed.

(** C4.  Let [stmt] evaluate to a ReturnValue wrapping [v], after statements
    [pre] that let the loop go on.  A block returns that ReturnValue itself,
    same address, not unwrapped, and skips the statements after it; so
    does an if expression whose consequence is that block.  A program
    returns [v].  A function whose body gives the ReturnValue returns [v]
    from the call.  So a return statement at the top level of a program
    yields the value of its operand. *)
Theorem return_signal_propagation (n : nat) (env : N)
    (pre : list ast.Node) (stmt : ast.Node) (post : list ast.Node) (p : N)
    (v : object.Object) (s s1 s2 : State) :
  Eval mapRange builtins hashString n stmt env s1
    = Done (object.ReturnValue p v) s2 ->
  (passes continues (Eval mapRange builtins hashString n) env pre s = Some s1 ->
     Eval mapRange builtins hashString (S n)
         (ast.BlockStatement (pre ++ stmt :: post)) env s
     = Done (object.ReturnValue p v) s2)
  /\ (passes proceeds (Eval mapRange builtins hashString n) env pre s = Some s1 ->
      Eval mapRange builtins hashString (S n)
          (ast.Program (pre ++ stmt :: post)) env s
      = Done v s2)
  /\ (forall fn Parameters Body Env args s0,
        stmt = ast.BlockStatement Body ->
        extendedFunctionEnv Parameters Env args s0 = Done env s1 ->
        applyFunction builtins (Eval mapRange builtins hashString n)
            (object.Function fn Parameters Body Env) args s0
        = Done v s2)
  /\ (forall operand val sa sb,
        passes proceeds (Eval mapRange builtins hashString (S n)) env pre s
          = Some sa ->
        Eval mapRange builtins hashString n operand env sa = Done val sb ->
        isError val = false ->
        Eval mapRange builtins hashString (S (S n))
            (ast.Program (pre ++ ast.ReturnStatement operand :: post)) env s
        = Done val (allocated sb))
  /\ (forall Condition Alternative condition s0,
        Eval mapRange builtins hashString (S n) Condition env s0
          = Done condition s ->
        isError condition = false ->
        isTruthy condition = true ->
        passes continues (Eval mapRange builtins hashString n) env pre s
          = Some s1 ->
        Eval mapRange builtins hashString (S (S n))
            (ast.IfExpression Condition (pre ++ stmt :: post) Alternative) env s0
        = Done (object.ReturnValue p v) s2).
Proof.
  intros Hstmt.
  assert (Hblock :
    passes continues (Eval mapRange builtins hashString n) env pre s = Some s1 ->
    Eval mapRange builtins hashString (S n)
        (ast.BlockStatement (pre ++ stmt :: post)) env s
    = Done (object.ReturnValue p v) s2).
  { intros Hpre. rewrite Eval_S. unfold EvalNode, evalBlockStatement.
    rewrite (evalBlockStatementFrom_passes _ _ _ _ _ _ _ _ Hpre).
    cbn [evalBlockStatementFrom].
    rewrite (bind_Done _ _ _ _ _ Hstmt). reflexivity. }
  split; [exact Hblock|]. split; [|split; [|split]].
  - intros Hpre. rewrite Eval_S. unfold EvalNode, evalProgram.
    rewrite (evalProgramFrom_passes _ _ _ _ _ _ _ _ Hpre).
    cbn [evalProgramFrom].
    rewrite (bind_Done _ _ _ _ _ Hstmt). reflexivity.
  - intros fn Parameters Body Env args s0 -> Henv.
    unfold applyFunction.
    rewrite (bind_Done _ _ _ _ _ Henv).
    rewrite (bind_Done _ _ _ _ _ Hstmt). reflexivity.
  - intros operand val sa sb Hpre Hv Hval.
    rewrite Eval_S. unfold EvalNode, evalProgram.
    rewrite (evalProgramFrom_passes _ _ _ _ _ _ _ _ Hpre).
    cbn [evalProgramFrom].
    rewrite (bind_Done _ _ _ _ _
               (Eval_return n operand env sa sb val Hv Hval)).
    reflexivity.
  - intros Condition Alternative condition s0 Hc Herr Htruthy Hpre.
    rewrite Eval_S. unfold EvalNode, evalIfExpression.
    rewrite (bind_Done _ _ _ _ _ Hc), Herr, Htruthy.
    exact (Hblock Hpre).
Qed.

End Signals.

(** [let a = 5; let b = a;] evaluates to nil, with both names bound. *)
Lemma program_ending_in_let_gives_nil_witness :
  run sourceOrder 3
    (ast.Program
       [ast.LetStatement "a" (ast.IntegerLiteral 5);
        ast.LetStatement "b" (ast.Identifier "a")])
  = Done object.Nil
      (mkState
         {[ 0%N := object.mkEnvironment
                     (<["b" := object.Integer 1 5]>
                        {[ "a" := object.Integer 1 5 ]}) None ]} 2).
Proof.
  refine (eq_trans
            (proj1 (program_ending_in_let_gives_nil sourceOrder noBuiltins codeSum
                      1 [ast.LetStatement "a" (ast.IntegerLiteral 5)] "b"
                      (ast.Identifier "a") 0%N initial _ _ (object.Integer 1 5)
                      (object.mkEnvironment {[ "a" := object.Integer 1 5 ]} None)
                      _ _ _ _)) _).
  - vm_compute. reflexivity.
  - vm_compute. reflexivity.
  - reflexivity.
  - vm_compute. reflexivity.
  - vm_compute. reflexivity.
Defined.

(** [1; return 2; 3] evaluates to 2 at the top level, and the block of the
    same statements to the ReturnValue itself. *)
Lemma return_signal_propagation_witness :
  run sourceOrder 3
    (ast.Program
       [ast.ExpressionStatement (ast.IntegerLiteral 1);
        ast.ReturnStatement (ast.IntegerLiteral 2);
        ast.ExpressionStatement (ast.IntegerLiteral 3)])
    = Done (object.Integer 2 2) (mkState (heap initial) 4)
  /\ run sourceOrder 3
       (ast.BlockStatement
          [ast.ExpressionStatement (ast.IntegerLiteral 1);
           ast.ReturnStatement (ast.IntegerLiteral 2);
           ast.ExpressionStatement (ast.IntegerLiteral 3)])
    = Done (object.ReturnValue 3 (object.Integer 2 2)) (mkState (heap initial) 4).
Proof.
  pose proof (return_signal_propagation sourceOrder noBuiltins codeSum 2 0%N
                [ast.ExpressionStatement (ast.IntegerLiteral 1)]
                (ast.ReturnStatement (ast.IntegerLiteral 2))
                [ast.ExpressionStatement (ast.IntegerLiteral 3)]
                3%N (object.Integer 2 2) initial (allocated initial)
                (mkState (heap initial) 4) eq_refl) as [Hblock [Hprogram _]].
  split.
  - exact (Hprogram eq_refl).
  - exact (Hblock eq_refl).
Defined.

(** ** Calls *)

Lemma State_eta (s : State) : mkState (heap s) (next s) = s.
Proof. destruct s; reflexivity. Qed.

Lemma Environment_eta (E : object.Environment) :
  object.mkEnvironment (object.store E) (object.outer E) = E.
Proof. destruct E; reflexivity. Qed.

(** With an argument for every parameter the loop of [extendedFunctionEnv]
    binds them all, in the table of [env] alone. *)
Lemma bindParameters_enough (env : N) (Parameters : list string) :
  forall (paramIdx : nat) (args : list object.Object) (s : State)
         (E : object.Environment),
    heap s !! env = Some E ->
    paramIdx + length Parameters <= length args ->
    bindParameters env Parameters paramIdx args s
    = Done tt
        (mkState
           (<[env := object.mkEnvironment
                       (foldl (fun st xa => <[xa.1 := xa.2]> st) (object.store E)
                          (zip Parameters (drop paramIdx args)))
                       (object.outer E)]> (heap s))
           (next s)).
Proof.
  induction Parameters as [|param rest IH]; intros paramIdx args s E HE Hlen.
  - cbn [bindParameters zip zip_with foldl]. unfold ret.
    rewrite Environment_eta, (insert_id _ _ _ HE), State_eta. reflexivity.
  - cbn [length] in Hlen. cbn [bindParameters].
    destruct (lookup_lt_is_Some_2 args paramIdx) as [arg Harg]; [lia|].
    rewrite Harg, (drop_S _ _ _ Harg).
    cbn [zip zip_with foldl fst snd].
    unfold bind at 1. unfold environment.Set' at 1. rewrite HE.
    rewrite (IH (S paramIdx) args _
               (object.mkEnvironment (<[param := arg]> (object.store E))
                  (object.outer E))).
    + cbn [heap next object.store object.outer].
      rewrite insert_insert_eq. reflexivity.
    + cbn [heap]. apply lookup_insert_eq.
    + lia.
Qed.

(** With fewer arguments than parameters the loop panics at the first
    parameter that has no argument. *)
Lemma bindParameters_short (env : N) (Parameters : list string) :
  forall (paramIdx : nat) (args : list object.Object) (s : State)
         (E : object.Environment),
    heap s !! env = Some E ->
    paramIdx <= length args ->
    length args < paramIdx + length Parameters ->
    bindParameters env Parameters paramIdx args s = Panicked IndexOutOfRange.
Proof.
  induction Parameters as [|param rest IH]; intros paramIdx args s E HE Hlo Hhi.
  - cbn [length] in Hhi. lia.
  - cbn [length] in Hhi. cbn [bindParameters].
    destruct (args !! paramIdx) as [arg|] eqn:Harg; [|reflexivity].
    apply lookup_lt_Some in Harg.
    unfold bind at 1. unfold environment.Set' at 1. rewrite HE.
    apply (IH (S paramIdx) args _
             (object.mkEnvironment (<[param := arg]> (object.store E))
                (object.outer E))).
    + cbn [heap]. apply lookup_insert_eq.
    + lia.
    + lia.
Qed.

Lemma foldl_insert_is_Some (l : list (string * object.Object))
    (st : gmap string object.Object) (x : string) :
  x ∈ l.*1 ->
  is_Some (foldl (fun st xa => <[xa.1 := xa.2]> st) st l !! x).
Proof.
  revert st. induction l as [|xa l IH] using rev_ind; intros st Hx.
  - cbn in Hx. apply elem_of_nil in Hx. contradiction.
  - rewrite foldl_snoc.
    destruct (decide (x = xa.1)) as [->|Hne].
    + rewrite lookup_insert_eq. eauto.
    + rewrite lookup_insert_ne by congruence.
      apply IH. rewrite fmap_app in Hx.
      apply elem_of_app in Hx as [Hx|Hx]; [exact Hx|].
      cbn in Hx. apply list_elem_of_singleton in Hx. contradiction.
Qed.

Lemma extendedFunctionEnv_enough (Parameters : list string) (Env : N)
    (args : list object.Object) (s : State) :
  length Parameters <= length args ->
  extendedFunctionEnv Parameters Env args s
  = Done (next s)
      (mkState
         (<[next s := object.mkEnvironment (bindings Parameters args) (Some Env)]>
            (heap s))
         (N.succ (next s))).
Proof.
  intros Hlen. unfold extendedFunctionEnv.
  unfold bind at 1. unfold environment.NewEnclosedEnvironment at 1.
  rewrite (bind_Done _ _ _ _ _
             (bindParameters_enough (next s) Parameters 0 args _
                (object.mkEnvironment ∅ (Some Env))
                (lookup_insert_eq _ _ _) Hlen)).
  cbn [heap next object.store object.outer drop].
  rewrite insert_insert_eq. reflexivity.
Qed.

Lemma extendedFunctionEnv_short (Parameters : list string) (Env : N)
    (args : list object.Object) (s : State) :
  length args < length Parameters ->
  extendedFunctionEnv Parameters Env args s = Panicked IndexOutOfRange.
Proof.
  intros Hlen. unfold extendedFunctionEnv.
  unfold bind at 1. unfold environment.NewEnclosedEnvironment at 1.
  rewrite (bind_Panicked _ _ _ _
             (bindParameters_short (next s) Parameters 0 args _
                (object.mkEnvironment ∅ (Some Env))
                (lookup_insert_eq _ _ _) (Nat.le_0_l _) Hlen)).
  reflexivity.
Qed.

Section Calls.

Variable mapRange : list (ast.Node * ast.Node) -> list (ast.Node * ast.Node).
Variable builtins : string -> option (list object.Object -> M object.Object).
Variable hashString : string -> N.

(** C1, as the code has it.  A call with fewer arguments than parameters
    fails in the call itself: binding the first parameter that has no
    argument reads past the end of the arguments, a panic of the Go run
    time, and the body is never evaluated.  A call with at least as many
    arguments as parameters does not fail in the binding: the fresh
    environment, enclosed by the function's own, binds every parameter to the
    argument at its position, the arguments past the last parameter are
    ignored, and the call is the evaluation of the body in that environment
    with a ReturnValue unwrapped. *)
Theorem call_with_argument_count_mismatch (n : nat) (fn : N)
    (Parameters : list string) (Body : list ast.Node) (Env : N)
    (args : list object.Object) (s : State) :
  (length args < length Parameters ->
     applyFunction builtins (Eval mapRange builtins hashString n)
         (object.Function fn Parameters Body Env) args s
     = Panicked IndexOutOfRange)
  /\ (length Parameters <= length args ->
      extendedFunctionEnv Parameters Env args s
      = Done (next s)
          (mkState
             (<[next s := object.mkEnvironment (bindings Parameters args)
                            (Some Env)]> (heap s))
             (N.succ (next s)))
      /\ applyFunction builtins (Eval mapRange builtins hashString n)
             (object.Function fn Parameters Body Env) args s
         = bind (Eval mapRange builtins hashString n
                   (ast.BlockStatement Body) (next s))
             (fun evaluated => ret (unwrapReturnValue evaluated))
             (mkState
                (<[next s := object.mkEnvironment (bindings Parameters args)
                               (Some Env)]> (heap s))
                (N.succ (next s)))
      /\ bindings Parameters args
         = bindings Parameters (take (length Parameters) args)
      /\ (forall param, param ∈ Parameters ->
            is_Some (bindings Parameters args !! param))).
Proof.
  split.
  - intros Hlen. unfold applyFunction.
    rewrite (bind_Panicked _ _ _ _
               (extendedFunctionEnv_short Parameters Env args s Hlen)).
    reflexivity.
  - intros Hlen.
    pose proof (extendedFunctionEnv_enough Parameters Env args s Hlen) as Henv.
    split; [exact Henv|]. split; [|split].
    + unfold applyFunction. rewrite (bind_Done _ _ _ _ _ Henv). reflexivity.
    + unfold bindings. rewrite zip_with_take_r. reflexivity.
    + intros param Hparam. unfold bindings.
      apply foldl_insert_is_Some. rewrite fst_zip by exact Hlen. exact Hparam.
Qed.

End Calls.

(** [fn(x) { x }] applied to 5 and 6: [x] is 5 and the 6 is ignored. *)
Lemma call_with_argument_count_mismatch_witness :
  applyFunction noBuiltins (Eval sourceOrder noBuiltins codeSum 3)
    (object.Function 1 ["x"] [ast.ExpressionStatement (ast.Identifier "x")] 0)
    [object.Integer 2 5; object.Integer 3 6] (mkState (heap initial) 4)
  = Done (object.Integer 2 5)
      (mkState
         (<[4%N := object.mkEnvironment {[ "x" := object.Integer 2 5 ]} (Some 0%N)]>
            (heap initial)) 5).
Proof.
  refine (eq_trans
            (proj1 (proj2 (proj2 (call_with_argument_count_mismatch
                                    sourceOrder noBuiltins codeSum 3 1%N ["x"]
                                    [ast.ExpressionStatement (ast.Identifier "x")]
                                    0%N [object.Integer 2 5; object.Integer 3 6]
                                    (mkState (heap initial) 4)) _))) _).
  - cbn. lia.
  - vm_compute. reflexivity.
Defined.

(** C1 fails as stated: [fn(x, y) { 1 }(5)], whose body dereferences no
    parameter at all, panics in the call. *)
Lemma call_with_missing_argument_panics :
  run sourceOrder 5
    (ast.Program
       [ast.ExpressionStatement
          (ast.CallExpression
             (ast.FunctionLiteral ["x"; "y"]
                [ast.ExpressionStatement (ast.IntegerLiteral 1)])
             [ast.IntegerLiteral 5])])
  = Panicked IndexOutOfRange.
Proof. reflexivity. Qed.

(** ** Hash literals *)

Section HashLiterals.

Variable mapRange : list (ast.Node * ast.Node) -> list (ast.Node * ast.Node).
Variable builtins : string -> option (list object.Object -> M object.Object).
Variable hashString : string -> N.

Lemma insertPair_hashable
    (pairs : gmap (string * N) (object.Object * object.Object))
    (key value : object.Object) (hashed : string * N) :
  object.HashKeyOf hashString key = Some hashed ->
  insertPair hashString pairs (key, value) = <[hashed := (key, value)]> pairs.
Proof. unfold insertPair. cbn [fst]. intros ->. reflexivity. Qed.

(** When every key and value evaluates, the loop of [evalHashLiteral] runs
    to its end and has inserted the pairs in the order visited. *)
Lemma evalHashPairs_entries (ev : ast.Node -> N -> M object.Object) (env : N)
    (entries : list (ast.Node * ast.Node)) :
  forall (s s' : State)
         (pairs : gmap (string * N) (object.Object * object.Object))
         (kvs : list (object.Object * object.Object)),
    evalEntries hashString ev env entries s = Some (kvs, s') ->
    evalHashPairs hashString ev entries env pairs s
    = Done (inr (foldl (insertPair hashString) pairs kvs)) s'.
Proof.
  induction entries as [|[keyNode valueNode] rest IH]; intros s s' pairs kvs H.
  - cbn in H. injection H as <- <-. reflexivity.
  - cbn [evalEntries] in H. cbn [evalHashPairs].
    destruct (ev keyNode env s) as [key s1| |] eqn:Hkey; try discriminate.
    rewrite (bind_Done _ _ _ _ _ Hkey).
    destruct (isError key); [discriminate|].
    destruct (object.HashKeyOf hashString key) as [hashed|] eqn:Hhash;
      [|discriminate].
    destruct (ev valueNode env s1) as [value s2| |] eqn:Hvalue; try discriminate.
    rewrite (bind_Done _ _ _ _ _ Hvalue).
    destruct (isError value); [discriminate|].
    destruct (evalEntries hashString ev env rest s2) as [[kvs' s3]|] eqn:Hrest;
      [|discriminate].
    injection H as <- <-.
    rewrite (IH _ _ (<[hashed := (key, value)]> pairs) _ Hrest).
    cbn [foldl]. rewrite (insertPair_hashable _ _ _ _ Hhash). reflexivity.
Qed.

(** A pair stays in the map while no later key has its hash key. *)
Lemma foldl_insertPair_kept (kvs : list (object.Object * object.Object)) :
  forall (pairs : gmap (string * N) (object.Object * object.Object))
         (hashed : string * N) (kv : object.Object * object.Object),
    pairs !! hashed = Some kv ->
    (forall kv', kv' ∈ kvs -> object.HashKeyOf hashString kv'.1 <> Some hashed) ->
    foldl (insertPair hashString) pairs kvs !! hashed = Some kv.
Proof.
  induction kvs as [|kv0 kvs IH]; intros pairs hashed kv Hin Hlater.
  - exact Hin.
  - cbn [foldl]. apply IH.
    + unfold insertPair.
      destruct (object.HashKeyOf hashString kv0.1) as [h0|] eqn:H0; [|exact Hin].
      rewrite lookup_insert_ne; [exact Hin|].
      intros ->. apply (Hlater kv0); [left|exact H0].
    + intros kv' Hkv'. apply Hlater. right. exact Hkv'.
Qed.

(** The keys of the map are the hash keys of the pairs inserted. *)
Lemma foldl_insertPair_dom (kvs : list (object.Object * object.Object)) :
  forall (pairs : gmap (string * N) (object.Object * object.Object))
         (hashed : string * N),
    is_Some (foldl (insertPair hashString) pairs kvs !! hashed)
    <-> is_Some (pairs !! hashed)
        \/ exists kv, kv ∈ kvs /\ object.HashKeyOf hashString kv.1 = Some hashed.
Proof.
  induction kvs as [|kv0 kvs IH]; intros pairs hashed.
  - cbn [foldl]. split; [auto|].
    intros [H|(kv & Hkv & _)]; [exact H|]. apply elem_of_nil in Hkv. contradiction.
  - cbn [foldl]. rewrite IH. unfold insertPair.
    destruct (object.HashKeyOf hashString kv0.1) as [h0|] eqn:H0.
    + split.
      * intros [H|(kv & Hkv & Hh)].
        -- destruct (decide (h0 = hashed)) as [->|Hne].
           ++ right. exists kv0. split; [left|exact H0].
           ++ rewrite lookup_insert_ne in H by exact Hne. left. exact H.
        -- right. exists kv. split; [right; exact Hkv|exact Hh].
      * intros [H|(kv & Hkv & Hh)].
        -- left. destruct (decide (h0 = hashed)) as [->|Hne].
           ++ rewrite lookup_insert_eq. eauto.
           ++ rewrite lookup_insert_ne by exact Hne. exact H.
        -- apply elem_of_cons in Hkv as [->|Hkv].
           ++ left. rewrite H0 in Hh. injection Hh as ->.
              rewrite lookup_insert_eq. eauto.
           ++ right. exists kv. split; assumption.
    + split.
      * intros [H|(kv & Hkv & Hh)]; [left; exact H|].
        right. exists kv. split; [right; exact Hkv|exact Hh].
      * intros [H|(kv & Hkv & Hh)]; [left; exact H|].
        apply elem_of_cons in Hkv as [->|Hkv].
        -- rewrite H0 in Hh. discriminate.
        -- right. exists kv. split; assumption.
Qed.

(** C7, as the code has it.  Let [kvs] be the keys and values of a hash
    literal, evaluated in the order [range] visits its entries.  The
    literal evaluates to a fresh Hash whose map holds, under each hash key,
    the one pair of the occurrence visited last with that hash key, and
    holds nothing under any other key.  Which occurrence is visited last
    is the choice of [mapRange], not of the source text. *)
Theorem hash_literal_last_visited_wins (n : nat)
    (Pairs : list (ast.Node * ast.Node)) (env : N) (s s' : State)
    (kvs : list (object.Object * object.Object)) :
  evalEntries hashString (Eval mapRange builtins hashString n) env
      (mapRange Pairs) s = Some (kvs, s') ->
  Eval mapRange builtins hashString (S n) (ast.HashLiteral Pairs) env s
    = Done (object.Hash (next s') (collected hashString kvs)) (allocated s')
  /\ (forall l1 key value l2 hashed,
        kvs = l1 ++ (key, value) :: l2 ->
        object.HashKeyOf hashString key = Some hashed ->
        (forall kv, kv ∈ l2 -> object.HashKeyOf hashString kv.1 <> Some hashed) ->
        collected hashString kvs !! hashed = Some (key, value))
  /\ (forall hashed,
        is_Some (collected hashString kvs !! hashed)
        <-> exists kv, kv ∈ kvs /\ object.HashKeyOf hashString kv.1 = Some hashed).
Proof.
  intros Hkvs. split; [|split].
  - rewrite Eval_S. unfold EvalNode, evalHashLiteral.
    rewrite (bind_Done _ _ _ _ _ (evalHashPairs_entries _ _ _ _ _ ∅ _ Hkvs)).
    reflexivity.
  - intros l1 key value l2 hashed -> Hhash Hlater.
    unfold collected. rewrite foldl_app. cbn [foldl].
    apply foldl_insertPair_kept; [|exact Hlater].
    rewrite (insertPair_hashable _ _ _ _ Hhash). apply lookup_insert_eq.
  - intros hashed. unfold collected. rewrite foldl_insertPair_dom.
    rewrite lookup_empty. split.
    + intros [[x Hx]|H]; [discriminate|exact H].
    + intros H. right. exact H.
Qed.

End HashLiterals.

(** [{"a": 1, "a": 2}] with the entries visited in source order: the one
    pair is ["a" -> 2]. *)
Lemma hash_literal_last_visited_wins_witness :
  run sourceOrder 2 duplicateKeys
  = Done (object.Hash 5
            {[ (object.STRING_OBJ, codeSum "a")
               := (object.String 3 "a", object.Integer 4 2) ]})
      (mkState (heap initial) 6).
Proof.
  refine (eq_trans
            (proj1 (hash_literal_last_visited_wins sourceOrder noBuiltins codeSum 1
                      [(ast.StringLiteral "a", ast.IntegerLiteral 1);
                       (ast.StringLiteral "a", ast.IntegerLiteral 2)]
                      0%N initial (mkState (heap initial) 5)
                      [(object.String 1 "a", object.Integer 2 1);
                       (object.String 3 "a", object.Integer 4 2)] eq_refl)) _).
  vm_compute. reflexivity.
Defined.

(** C7 fails as stated: with the two entries of [{"a": 1, "a": 2}] visited
    in the opposite order, which is a permutation of them as any order of
    [range] is, the one pair is ["a" -> 1]. *)
Lemma hash_literal_first_in_source_can_win :
  run reverseOrder 2 duplicateKeys
    = Done (object.Hash 5
              {[ (object.STRING_OBJ, codeSum "a")
                 := (object.String 3 "a", object.Integer 4 1) ]})
        (mkState (heap initial) 6)
  /\ Permutation
       (reverseOrder
          [(ast.StringLiteral "a", ast.IntegerLiteral 1);
           (ast.StringLiteral "a", ast.IntegerLiteral 2)])
       [(ast.StringLiteral "a", ast.IntegerLiteral 1);
        (ast.StringLiteral "a", ast.IntegerLiteral 2)].
Proof.
  split.
  - vm_compute. reflexivity.
  - apply reverse_Permutation.
Qed.

(** ** The scenarios of the specification *)

(** [let add = fn(a, b) { a + b }; add(2, 3);] *)
Example scenario_add :
  value
    (run sourceOrder 7
       (ast.Program
          [ast.LetStatement "add"
             (ast.FunctionLiteral ["a"; "b"]
                [ast.ExpressionStatement
                   (ast.InfixExpression (ast.Identifier "a") "+"
                      (ast.Identifier "b"))]);
           ast.ExpressionStatement
             (ast.CallExpression (ast.Identifier "add")
                [ast.IntegerLiteral 2; ast.IntegerLiteral 3])]))
  = Some (object.Integer 5 5).
Proof. vm_compute. reflexivity. Qed.

(** [let newAdder = fn(x) { fn(y) { x + y } }; let addTwo = newAdder(2);
    addTwo(3);]: the inner function still sees [x] after the call of
    [newAdder] has returned. *)
Example scenario_closure :
  value
    (run sourceOrder 8
       (ast.Program
          [ast.LetStatement "newAdder"
             (ast.FunctionLiteral ["x"]
                [ast.ExpressionStatement
                   (ast.FunctionLiteral ["y"]
                      [ast.ExpressionStatement
                         (ast.InfixExpression (ast.Identifier "x") "+"
                            (ast.Identifier "y"))])]);
           ast.LetStatement "addTwo"
             (ast.CallExpression (ast.Identifier "newAdder")
                [ast.IntegerLiteral 2]);
           ast.ExpressionStatement
             (ast.CallExpression (ast.Identifier "addTwo")
                [ast.IntegerLiteral 3])]))
  = Some (object.Integer 7 5).
Proof. vm_compute. reflexivity. Qed.

(** ["foo" + "bar"], ["foo" - "bar"], [foobar;] and [{"one": 1}["one"]]. *)
Example scenario_strings_and_errors :
  value
    (run sourceOrder 4
       (ast.Program
          [ast.ExpressionStatement
             (ast.InfixExpression (ast.StringLiteral "foo") "+"
                (ast.StringLiteral "bar"))]))
    = Some (object.String 3 "foobar")
  /\ value
       (run sourceOrder 4
          (ast.Program
             [ast.ExpressionStatement
                (ast.InfixExpression (ast.StringLiteral "foo") "-"
                   (ast.StringLiteral "bar"))]))
     = Some (object.Error 3 "unknown operator: STRING - STRING")
  /\ value
       (run sourceOrder 3
          (ast.Program [ast.ExpressionStatement (ast.Identifier "foobar")]))
     = Some (object.Error 1 "identifier not found: foobar")
  /\ value
       (run sourceOrder 5
          (ast.Program
             [ast.ExpressionStatement
                (ast.IndexExpression
                   (ast.HashLiteral
                      [(ast.StringLiteral "one", ast.IntegerLiteral 1)])
                   (ast.StringLiteral "one"))]))
     = Some (object.Error 5 "index operator not supported: HASH").
Proof. repeat split; vm_compute; reflexivity. Qed.

(** * Further properties *)

(** ** Expression lists, array literals and calls *)

Section ExpressionLists.

Variable ev : ast.Node -> N -> M object.Object.

Lemma evalAll_length (env : N) (exps : list ast.Node) :
  forall s s' vals,
    evalAll ev env exps s = Some (vals, s') -> length vals = length exps.
Proof.
  induction exps as [|e rest IH]; intros s s' vals H; cbn [evalAll] in H.
  - injection H as <- _. reflexivity.
  - destruct (ev e env s) as [v s1| |]; try discriminate.
    destruct (isError v); [discriminate|].
    destruct (evalAll ev env rest s1) as [[vs s2]|] eqn:Hrest; [|discriminate].
    injection H as <- _. cbn [length]. f_equal. exact (IH _ _ _ Hrest).
Qed.

Lemma evalAll_no_error (env : N) (exps : list ast.Node) :
  forall s s' vals,
    evalAll ev env exps s = Some (vals, s') ->
    Forall (fun v => isError v = false) vals.
Proof.
  induction exps as [|e rest IH]; intros s s' vals H; cbn [evalAll] in H.
  - injection H as <- _. constructor.
  - destruct (ev e env s) as [v s1| |]; try discriminate.
    destruct (isError v) eqn:Hv; [discriminate|].
    destruct (evalAll ev env rest s1) as [[vs s2]|] eqn:Hrest; [|discriminate].
    injection H as <- _. constructor; [exact Hv|exact (IH _ _ _ Hrest)].
Qed.

Lemma evalExpressionsFrom_all (env : N) (exps : list ast.Node) :
  forall s s' vals result,
    evalAll ev env exps s = Some (vals, s') ->
    evalExpressionsFrom ev exps env result s = Done (result ++ vals) s'.
Proof.
  induction exps as [|e rest IH]; intros s s' vals result H;
    cbn [evalAll] in H; cbn [evalExpressionsFrom].
  - injection H as <- <-. rewrite app_nil_r. reflexivity.
  - destruct (ev e env s) as [v s1| |] eqn:He; try discriminate.
    rewrite (bind_Done _ _ _ _ _ He).
    destruct (isError v); [discriminate|].
    destruct (evalAll ev env rest s1) as [[vs s2]|] eqn:Hrest; [|discriminate].
    injection H as <- <-.
    rewrite (IH _ _ _ (result ++ [v]) Hrest), <- app_assoc. reflexivity.
Qed.

Lemma evalExpressionsFrom_first_error (env : N) (pre : list ast.Node)
    (e : ast.Node) (post : list ast.Node) (err : object.Object) :
  forall s s1 s2 vals result,
    evalAll ev env pre s = Some (vals, s1) ->
    ev e env s1 = Done err s2 ->
    isError err = true ->
    evalExpressionsFrom ev (pre ++ e :: post) env result s = Done [err] s2.
Proof.
  induction pre as [|a pre IH]; intros s s1 s2 vals result Hpre He Herr;
    cbn [evalAll] in Hpre; cbn [app evalExpressionsFrom].
  - injection Hpre as _ <-. rewrite (bind_Done _ _ _ _ _ He), Herr. reflexivity.
  - destruct (ev a env s) as [v sa| |] eqn:Ha; try discriminate.
    rewrite (bind_Done _ _ _ _ _ Ha).
    destruct (isError v); [discriminate|].
    destruct (evalAll ev env pre sa) as [[vs sb]|] eqn:Hrest; [|discriminate].
    injection Hpre as _ <-.
    exact (IH _ _ _ _ _ Hrest He Herr).
Qed.

(** Whatever [evalExpressions] returns is either one Error alone or the
    values of all the expressions. *)
Lemma evalExpressionsFrom_inv (env : N) (exps : list ast.Node) :
  forall s s' result r,
    evalExpressionsFrom ev exps env result s = Done r s' ->
    (exists err, r = [err] /\ isError err = true)
    \/ (exists vals, evalAll ev env exps s = Some (vals, s') /\ r = result ++ vals).
Proof.
  induction exps as [|e rest IH]; intros s s' result r H;
    cbn [evalExpressionsFrom] in H; cbn [evalAll].
  - injection H as <- <-. right. exists []. rewrite app_nil_r. auto.
  - unfold bind in H. destruct (ev e env s) as [v s1| |]; try discriminate.
    destruct (isError v) eqn:Hv.
    + injection H as <- <-. left. exists v. auto.
    + destruct (IH _ _ _ _ H) as [Herr|(vals & Hall & ->)]; [left; exact Herr|].
      right. exists (v :: vals). rewrite Hall, <- app_assoc. auto.
Qed.

(** X1.  [evalExpressions] evaluates the expressions from left to right.
    When none of them is an Error it returns all the values, in order.  At
    the first one that is an Error it returns that Error alone: the values
    before it are dropped and the expressions after it are not evaluated. *)
Theorem evalExpressions_all_or_first_error (env : N) (pre : list ast.Node)
    (vals : list object.Object) (s s1 : State) :
  evalAll ev env pre s = Some (vals, s1) ->
  evalExpressions ev pre env s = Done vals s1
  /\ length vals = length pre
  /\ (forall e post err s2,
        ev e env s1 = Done err s2 ->
        isError err = true ->
        evalExpressions ev (pre ++ e :: post) env s = Done [err] s2).
Proof.
  intros Hpre. split; [|split].
  - exact (evalExpressionsFrom_all env pre s s1 vals [] Hpre).
  - exact (evalAll_length env pre s s1 vals Hpre).
  - intros e post err s2 He Herr.
    exact (evalExpressionsFrom_first_error env pre e post err s s1 s2 vals []
             Hpre He Herr).
Qed.

End ExpressionLists.

(** [1, 2] evaluates to both values; in [1, foobar, 3] the unbound name is
    all that is returned. *)
Lemma evalExpressions_all_or_first_error_witness :
  evalExpressions (Eval sourceOrder noBuiltins codeSum 2)
      [ast.IntegerLiteral 1; ast.Identifier "foobar"; ast.IntegerLiteral 3]
      0%N initial
  = Done [object.Error 2 "identifier not found: foobar"]
      (mkState (heap initial) 3).
Proof.
  refine (proj2 (proj2 (evalExpressions_all_or_first_error
                          (Eval sourceOrder noBuiltins codeSum 2) 0%N
                          [ast.IntegerLiteral 1] [object.Integer 1 1] initial
                          (allocated initial) eq_refl))
            (ast.Identifier "foobar") [ast.IntegerLiteral 3]
            (object.Error 2 "identifier not found: foobar")
            (mkState (heap initial) 3) _ eq_refl).
  vm_compute. reflexivity.
Defined.

Section ArraysAndCalls.

Variable mapRange : list (ast.Node * ast.Node) -> list (ast.Node * ast.Node).
Variable builtins : string -> option (list object.Object -> M object.Object).
Variable hashString : string -> N.

(** X2.  An array that an array literal evaluates to holds the values of all
    its element expressions, one per expression, and none of them is an
    Error. *)
Theorem array_literal_has_no_error_element (n : nat) (Elements : list ast.Node)
    (env : N) (s s' : State) (p : N) (elements : list object.Object) :
  Eval mapRange builtins hashString (S n) (ast.ArrayLiteral Elements) env s
    = Done (object.Array p elements) s' ->
  length elements = length Elements
  /\ Forall (fun v => isError v = false) elements
  /\ exists s1,
       evalAll (Eval mapRange builtins hashString n) env Elements s
         = Some (elements, s1)
       /\ p = next s1 /\ s' = allocated s1.
Proof.
  intros H. rewrite Eval_S in H. unfold EvalNode, evalExpressions, bind in H.
  destruct (evalExpressionsFrom _ Elements env [] s) as [r s1| |] eqn:Hr;
    try discriminate.
  destruct (evalExpressionsFrom_inv _ _ _ _ _ _ _ Hr)
    as [(err & -> & Herr)|(vals & Hall & ->)].
  - rewrite Herr in H. injection H as -> _. discriminate.
  - cbn [app] in H.
    pose proof (evalAll_no_error _ _ _ _ _ _ Hall) as Hno.
    assert (Harr : Done (object.Array (next s1) vals) (allocated s1)
                   = Done (object.Array p elements) s').
    { destruct vals as [|v [|v' vals]]; try exact H.
      rewrite (Forall_inv Hno) in H. exact H. }
    injection Harr as <- <- <-.
    split; [exact (evalAll_length _ _ _ _ _ _ Hall)|].
    split; [exact Hno|].
    exists s1. auto.
Qed.


End ArraysAndCalls.

(** [[1, 2]] is an array of two values that are no Errors. *)
Lemma array_literal_has_no_error_element_witness :
  length [object.Integer 1 1; object.Integer 2 2]
  = length [ast.IntegerLiteral 1; ast.IntegerLiteral 2].
Proof.
  exact (proj1 (array_literal_has_no_error_element sourceOrder noBuiltins codeSum
                  1 [ast.IntegerLiteral 1; ast.IntegerLiteral 2] 0%N initial
                  (mkState (heap initial) 4) 3%N
                  [object.Integer 1 1; object.Integer 2 2] eq_refl)).
Defined.


(** ** Errors *)

Section Errors.

Variable mapRange : list (ast.Node * ast.Node) -> list (ast.Node * ast.Node).
Variable builtins : string -> option (list object.Object -> M object.Object).
Variable hashString : string -> N.

(** X4.  An Error that the first operand of a node evaluates to is the
    result of the node: the same object, in the state the operand left, with
    nothing else evaluated.  This holds for the operand of a return
    statement, an expression statement, a prefix expression and a let
    statement (which then binds nothing), for the left operand of an infix
    and of an index expression, for the condition of an if expression and
    for the callee of a call. *)
Theorem error_of_first_operand_is_result (n : nat) (e : ast.Node) (env : N)
    (s s1 : State) (err : object.Object) :
  Eval mapRange builtins hashString n e env s = Done err s1 ->
  isError err = true ->
  Eval mapRange builtins hashString (S n) (ast.ReturnStatement e) env s
    = Done err s1
  /\ Eval mapRange builtins hashString (S n) (ast.ExpressionStatement e) env s
     = Done err s1
  /\ (forall Name,
        Eval mapRange builtins hashString (S n) (ast.LetStatement Name e) env s
        = Done err s1)
  /\ (forall Operator,
        Eval mapRange builtins hashString (S n)
            (ast.PrefixExpression Operator e) env s
        = Done err s1)
  /\ (forall Operator Right,
        Eval mapRange builtins hashString (S n)
            (ast.InfixExpression e Operator Right) env s
        = Done err s1)
  /\ (forall Index,
        Eval mapRange builtins hashString (S n)
            (ast.IndexExpression e Index) env s
        = Done err s1)
  /\ (forall Consequence Alternative,
        Eval mapRange builtins hashString (S n)
            (ast.IfExpression e Consequence Alternative) env s
        = Done err s1)
  /\ (forall Arguments,
        Eval mapRange builtins hashString (S n)
            (ast.CallExpression e Arguments) env s
        = Done err s1).
Proof.
  intros He Herr.
  repeat split; intros; rewrite Eval_S; unfold EvalNode, evalIfExpression;
    try (rewrite (bind_Done _ _ _ _ _ He), Herr; reflexivity).
  exact He.
Qed.

(** X5.  An Error that the second operand of an infix or index expression
    evaluates to, after a first operand that is no Error, is the result of
    the expression; the operator is not applied. *)
Theorem error_of_second_operand_is_result (n : nat) (Left Right : ast.Node)
    (env : N) (s s1 s2 : State) (left err : object.Object) :
  Eval mapRange builtins hashString n Left env s = Done left s1 ->
  isError left = false ->
  Eval mapRange builtins hashString n Right env s1 = Done err s2 ->
  isError err = true ->
  (forall Operator,
     Eval mapRange builtins hashString (S n)
         (ast.InfixExpression Left Operator Right) env s
     = Done err s2)
  /\ Eval mapRange builtins hashString (S n)
         (ast.IndexExpression Left Right) env s
     = Done err s2.
Proof.
  intros HL Hl HR Herr.
  split; intros; rewrite Eval_S; unfold EvalNode;
    rewrite (bind_Done _ _ _ _ _ HL), Hl, (bind_Done _ _ _ _ _ HR), Herr;
    reflexivity.
Qed.

(** X6.  A statement that evaluates to an Error ends a block and a program:
    both return the Error itself and skip the statements after it.  A call
    whose body gives the Error returns it unchanged. *)
Theorem error_ends_block_and_program (n : nat) (env : N)
    (pre : list ast.Node) (stmt : ast.Node) (post : list ast.Node) (p : N)
    (message : string) (s s1 s2 : State) :
  Eval mapRange builtins hashString n stmt env s1
    = Done (object.Error p message) s2 ->
  (passes continues (Eval mapRange builtins hashString n) env pre s = Some s1 ->
     Eval mapRange builtins hashString (S n)
         (ast.BlockStatement (pre ++ stmt :: post)) env s
     = Done (object.Error p message) s2)
  /\ (passes proceeds (Eval mapRange builtins hashString n) env pre s = Some s1 ->
      Eval mapRange builtins hashString (S n)
          (ast.Program (pre ++ stmt :: post)) env s
      = Done (object.Error p message) s2)
  /\ (forall fn Parameters Body Env args s0,
        stmt = ast.BlockStatement Body ->
        extendedFunctionEnv Parameters Env args s0 = Done env s1 ->
        applyFunction builtins (Eval mapRange builtins hashString n)
            (object.Function fn Parameters Body Env) args s0
        = Done (object.Error p message) s2).
Proof.
  intros Hstmt. split; [|split].
  - intros Hpre. rewrite Eval_S. unfold EvalNode, evalBlockStatement.
    rewrite (evalBlockStatementFrom_passes _ _ _ _ _ _ _ _ Hpre).
    cbn [evalBlockStatementFrom].
    rewrite (bind_Done _ _ _ _ _ Hstmt). reflexivity.
  - intros Hpre. rewrite Eval_S. unfold EvalNode, evalProgram.
    rewrite (evalProgramFrom_passes _ _ _ _ _ _ _ _ Hpre).
    cbn [evalProgramFrom].
    rewrite (bind_Done _ _ _ _ _ Hstmt). reflexivity.
  - intros fn Parameters Body Env args s0 -> Henv.
    unfold applyFunction.
    rewrite (bind_Done _ _ _ _ _ Henv).
    rewrite (bind_Done _ _ _ _ _ Hstmt). reflexivity.
Qed.

End Errors.

(** [-foobar], [foobar + 1] and [let x = foobar;] all give
    [identifier not found: foobar]. *)
Lemma error_of_first_operand_is_result_witness :
  run sourceOrder 2 (ast.LetStatement "x" (ast.Identifier "foobar"))
  = Done (object.Error 1 "identifier not found: foobar") (allocated initial).
Proof.
  exact (proj1 (proj2 (proj2 (error_of_first_operand_is_result sourceOrder
                                noBuiltins codeSum 1 (ast.Identifier "foobar")
                                0%N initial (allocated initial)
                                (object.Error 1 "identifier not found: foobar")
                                eq_refl eq_refl))) "x").
Defined.

(** [1 + foobar]. *)
Lemma error_of_second_operand_is_result_witness :
  run sourceOrder 2
    (ast.InfixExpression (ast.IntegerLiteral 1) "+" (ast.Identifier "foobar"))
  = Done (object.Error 2 "identifier not found: foobar")
      (mkState (heap initial) 3).
Proof.
  exact (proj1 (error_of_second_operand_is_result sourceOrder noBuiltins codeSum
                  1 (ast.IntegerLiteral 1) (ast.Identifier "foobar") 0%N
                  initial (allocated initial) (mkState (heap initial) 3)
                  (object.Integer 1 1)
                  (object.Error 2 "identifier not found: foobar")
                  eq_refl eq_refl eq_refl eq_refl) "+").
Defined.

(** [1; foobar; 3] as a program and as a block. *)
Lemma error_ends_block_and_program_witness :
  run sourceOrder 3
    (ast.Program
       [ast.ExpressionStatement (ast.IntegerLiteral 1);
        ast.ExpressionStatement (ast.Identifier "foobar");
        ast.ExpressionStatement (ast.IntegerLiteral 3)])
    = Done (object.Error 2 "identifier not found: foobar")
        (mkState (heap initial) 3)
  /\ run sourceOrder 3
       (ast.BlockStatement
          [ast.ExpressionStatement (ast.IntegerLiteral 1);
           ast.ExpressionStatement (ast.Identifier "foobar");
           ast.ExpressionStatement (ast.IntegerLiteral 3)])
    = Done (object.Error 2 "identifier not found: foobar")
        (mkState (heap initial) 3).
Proof.
  pose proof (error_ends_block_and_program sourceOrder noBuiltins codeSum 2 0%N
                [ast.ExpressionStatement (ast.IntegerLiteral 1)]
                (ast.ExpressionStatement (ast.Identifier "foobar"))
                [ast.ExpressionStatement (ast.IntegerLiteral 3)]
                2%N "identifier not found: foobar" initial (allocated initial)
                (mkState (heap initial) 3) eq_refl) as [Hblock [Hprogram _]].
  split.
  - exact (Hprogram eq_refl).
  - exact (Hblock eq_refl).
Defined.

(** ** Operators *)

(** X7.  For every infix operator, arithmetic and comparison included,
    operands of two different types give the Error
    [type mismatch: L op R].  Operands of one type that is neither Integer
    nor String give, for every operator but [==] and [!=], the Error
    [unknown operator: T op T]. *)
Theorem infix_type_errors (left right : object.Object) (operator lt rt : string)
    (s : State) :
  object.Type' left = Some lt ->
  object.Type' right = Some rt ->
  (lt <> rt ->
     evalInfixExpression left operator right s
     = Done (object.Error (next s)
               ("type mismatch: " +:+ lt +:+ " " +:+ operator +:+ " " +:+ rt))
         (allocated s))
  /\ (lt = rt -> lt <> object.INTEGER_OBJ -> lt <> object.STRING_OBJ ->
      operator <> "==" -> operator <> "!=" ->
      evalInfixExpression left operator right s
      = Done (object.Error (next s)
                ("unknown operator: " +:+ lt +:+ " " +:+ operator +:+ " " +:+ rt))
          (allocated s)).
Proof.
  intros Hl Hr.
  unfold evalInfixExpression.
  rewrite (bind_Done _ _ _ _ _ (typeOf_Some _ _ s Hl)).
  rewrite (bind_Done _ _ _ _ _ (typeOf_Some _ _ s Hr)).
  split.
  - intros Hne. apply String.eqb_neq in Hne. rewrite Hne. reflexivity.
  - intros <- Hint Hstr Heq Hneq.
    apply String.eqb_neq in Hint, Hstr, Heq, Hneq.
    rewrite String.eqb_refl, Hint, Hstr, Heq, Hneq. reflexivity.
Qed.

(** [5 + true] and [true + false]. *)
Lemma infix_type_errors_witness :
  evalInfixExpression (object.Integer 1 5) "+" TRUE initial
    = Done (object.Error 1 "type mismatch: INTEGER + BOOLEAN") (allocated initial)
  /\ evalInfixExpression TRUE "+" FALSE initial
    = Done (object.Error 1 "unknown operator: BOOLEAN + BOOLEAN")
        (allocated initial).
Proof.
  split.
  - refine (proj1 (infix_type_errors (object.Integer 1 5) TRUE "+"
                     object.INTEGER_OBJ object.BOOLEAN_OBJ initial
                     eq_refl eq_refl) _).
    discriminate.
  - refine (proj2 (infix_type_errors TRUE FALSE "+" object.BOOLEAN_OBJ
                     object.BOOLEAN_OBJ initial eq_refl eq_refl)
              eq_refl _ _ _ _); discriminate.
Defined.

(** X8.  On two integers the comparisons look at the values, never at the
    addresses, and allocate nothing: [<], [>], [==] and [!=] give the
    [TRUE] or [FALSE] singleton of the mathematical comparison, so [a < b]
    and [b > a] agree and [!=] is the negation of [==].  An operator that is
    none of the eight integer operators gives the Error
    [unknown operator: INTEGER op INTEGER]. *)
Theorem integer_comparisons (p q : N) (a b : Z) (s : State) :
  evalInfixExpression (object.Integer p a) "<" (object.Integer q b) s
    = Done (boolean (Z.ltb a b)) s
  /\ evalInfixExpression (object.Integer p a) ">" (object.Integer q b) s
     = Done (boolean (Z.ltb b a)) s
  /\ evalInfixExpression (object.Integer p a) "==" (object.Integer q b) s
     = Done (boolean (Z.eqb a b)) s
  /\ evalInfixExpression (object.Integer p a) "!=" (object.Integer q b) s
     = Done (boolean (negb (Z.eqb a b))) s
  /\ (forall operator,
        operator <> "+" -> operator <> "-" -> operator <> "*" ->
        operator <> "/" -> operator <> ">" -> operator <> "<" ->
        operator <> "==" -> operator <> "!=" ->
        evalInfixExpression (object.Integer p a) operator (object.Integer q b) s
        = Done (object.Error (next s)
                  ("unknown operator: INTEGER " +:+ operator +:+ " INTEGER"))
            (allocated s)).
Proof.
  split; [reflexivity|]. split.
  { unfold evalInfixExpression, evalIntegerInfixExpression, bind, typeOf; simpl.
    rewrite Z.gtb_ltb. reflexivity. }
  split; [reflexivity|]. split; [reflexivity|].
  intros operator H1 H2 H3 H4 H5 H6 H7 H8.
  apply String.eqb_neq in H1, H2, H3, H4, H5, H6, H7, H8.
  unfold evalInfixExpression.
  rewrite (bind_Done _ _ s s object.INTEGER_OBJ) by reflexivity.
  rewrite (bind_Done _ _ s s object.INTEGER_OBJ) by reflexivity.
  change (negb (String.eqb object.INTEGER_OBJ object.INTEGER_OBJ)) with false.
  change (String.eqb object.INTEGER_OBJ object.INTEGER_OBJ) with true.
  cbv iota. cbn [andb].
  unfold evalIntegerInfixExpression.
  rewrite H1, H2, H3, H4, H5, H6, H7, H8. reflexivity.
Qed.

(** [5 % 2], should a tree ever hold that operator. *)
Lemma integer_comparisons_witness :
  evalInfixExpression (object.Integer 1 5) "%" (object.Integer 2 2) initial
  = Done (object.Error 1 "unknown operator: INTEGER % INTEGER") (allocated initial).
Proof.
  refine (proj2 (proj2 (proj2 (proj2
            (integer_comparisons 1 2 5 2 initial)))) "%" _ _ _ _ _ _ _ _);
    discriminate.
Defined.

(** X9.  On two strings [+] gives a fresh String holding the left text
    followed by the right text.  Every other operator but [==] and [!=]
    gives the Error [unknown operator: STRING op STRING]. *)
Theorem string_infix (p q : N) (l r : string) (s : State) :
  evalInfixExpression (object.String p l) "+" (object.String q r) s
    = Done (object.String (next s) (l +:+ r)) (allocated s)
  /\ (forall operator,
        operator <> "+" -> operator <> "==" -> operator <> "!=" ->
        evalInfixExpression (object.String p l) operator (object.String q r) s
        = Done (object.Error (next s)
                  ("unknown operator: STRING " +:+ operator +:+ " STRING"))
            (allocated s)).
Proof.
  split; [reflexivity|].
  intros operator H1 H2 H3.
  apply String.eqb_neq in H1, H2, H3.
  unfold evalInfixExpression.
  rewrite (bind_Done _ _ s s object.STRING_OBJ) by reflexivity.
  rewrite (bind_Done _ _ s s object.STRING_OBJ) by reflexivity.
  change (negb (String.eqb object.STRING_OBJ object.STRING_OBJ)) with false.
  change (String.eqb object.STRING_OBJ object.INTEGER_OBJ) with false.
  change (String.eqb object.STRING_OBJ object.STRING_OBJ) with true.
  cbv iota. cbn [andb].
  rewrite H2, H3.
  unfold evalStringInfixExpression. rewrite H1. reflexivity.
Qed.

(** ["foo" - "bar"]. *)
Lemma string_infix_witness :
  evalInfixExpression (object.String 1 "foo") "-" (object.String 2 "bar") initial
  = Done (object.Error 1 "unknown operator: STRING - STRING") (allocated initial).
Proof.
  refine (proj2 (string_infix 1 2 "foo" "bar" initial) "-" _ _ _); discriminate.
Defined.

(** X10.  Prefix operators on a value of type [t].  [-] on anything but an
    Integer gives the Error [unknown operator: -t].  An operator that is
    neither [!] nor [-] gives an Error whose message starts with
    [unkown operator: ], spelt so, followed by the operator and [t]. *)
Theorem prefix_operator_errors (right : object.Object) (t : string) (s : State) :
  object.Type' right = Some t ->
  (t <> object.INTEGER_OBJ ->
     evalPrefixExpression "-" right s
     = Done (object.Error (next s) ("unknown operator: -" +:+ t)) (allocated s))
  /\ (forall operator,
        operator <> "!" -> operator <> "-" ->
        evalPrefixExpression operator right s
        = Done (object.Error (next s) ("unkown operator: " +:+ operator +:+ t))
            (allocated s)).
Proof.
  intros Ht. split.
  - intros Hne. apply String.eqb_neq in Hne.
    unfold evalPrefixExpression. cbn [String.eqb Ascii.eqb Bool.eqb].
    unfold evalMinusOperator.
    rewrite (bind_Done _ _ _ _ _ (typeOf_Some _ _ s Ht)), Hne. reflexivity.
  - intros operator H1 H2. apply String.eqb_neq in H1, H2.
    unfold evalPrefixExpression. rewrite H1, H2.
    rewrite (bind_Done _ _ _ _ _ (typeOf_Some _ _ s Ht)). reflexivity.
Qed.

(** [-true]. *)
Lemma prefix_operator_errors_witness :
  evalPrefixExpression "-" TRUE initial
  = Done (object.Error 1 "unknown operator: -BOOLEAN") (allocated initial).
Proof.
  refine (proj1 (prefix_operator_errors TRUE object.BOOLEAN_OBJ initial eq_refl) _).
  discriminate.
Defined.

Lemma wrap64_opp_opp (a : Z) : int64 a -> wrap64 (- wrap64 (- a)) = a.
Proof.
  intros Ha.
  destruct (Z.eq_dec a (- 2 ^ 63)%Z) as [->|Hmin]; [reflexivity|].
  rewrite (wrap64_exact (- a)) by (unfold int64 in *; lia).
  rewrite Z.opp_involutive. apply wrap64_exact. exact Ha.
Qed.

Section Negation.

Variable mapRange : list (ast.Node * ast.Node) -> list (ast.Node * ast.Node).
Variable builtins : string -> option (list object.Object -> M object.Object).
Variable hashString : string -> N.

Lemma Eval_minus (n : nat) (e : ast.Node) (env : N) (s s1 : State) (p : N)
    (a : Z) :
  Eval mapRange builtins hashString n e env s = Done (object.Integer p a) s1 ->
  Eval mapRange builtins hashString (S n) (ast.PrefixExpression "-" e) env s
    = Done (object.Integer (next s1) (wrap64 (- a))) (allocated s1).
Proof.
  intros He. rewrite Eval_S. unfold EvalNode.
  rewrite (bind_Done _ _ _ _ _ He). reflexivity.
Qed.

(** X11.  When [e] evaluates to the 64-bit integer [a], [-e] evaluates to a
    fresh Integer holding the wrapped negation of [a], which is [-a] except
    for the least integer, whose negation is itself; and [--e] evaluates to
    a fresh Integer holding [a] again, for every [a]. *)
Theorem minus_negates_and_twice_restores (n : nat) (e : ast.Node) (env : N)
    (s s1 : State) (p : N) (a : Z) :
  Eval mapRange builtins hashString n e env s = Done (object.Integer p a) s1 ->
  int64 a ->
  Eval mapRange builtins hashString (S n) (ast.PrefixExpression "-" e) env s
    = Done (object.Integer (next s1) (wrap64 (- a))) (allocated s1)
  /\ (a <> (- 2 ^ 63)%Z -> wrap64 (- a) = (- a)%Z)
  /\ (a = (- 2 ^ 63)%Z -> wrap64 (- a) = a)
  /\ Eval mapRange builtins hashString (S (S n))
         (ast.PrefixExpression "-" (ast.PrefixExpression "-" e)) env s
     = Done (object.Integer (N.succ (next s1)) a) (allocated (allocated s1)).
Proof.
  intros He Ha. split; [exact (Eval_minus n e env s s1 p a He)|].
  split; [|split].
  - intros Hmin. apply wrap64_exact. unfold int64 in *. lia.
  - intros ->. reflexivity.
  - rewrite (Eval_minus (S n) (ast.PrefixExpression "-" e) env s (allocated s1)
               (next s1) (wrap64 (- a)) (Eval_minus n e env s s1 p a He)).
    rewrite (wrap64_opp_opp a Ha). reflexivity.
Qed.

End Negation.

(** [--5] is 5. *)
Lemma minus_negates_and_twice_restores_witness :
  run sourceOrder 3
    (ast.PrefixExpression "-" (ast.PrefixExpression "-" (ast.IntegerLiteral 5)))
  = Done (object.Integer 3 5) (mkState (heap initial) 4).
Proof.
  refine (proj2 (proj2 (proj2
            (minus_negates_and_twice_restores sourceOrder noBuiltins codeSum 1
               (ast.IntegerLiteral 5) 0%N initial (allocated initial) 1%N 5
               eq_refl _)))).
  unfold int64. lia.
Defined.

(** ** Names *)

Lemma walk_local (depth : nat) (e : N) (name : string) (s : State)
    (E : object.Environment) (v : object.Object) :
  heap s !! e = Some E ->
  object.store E !! name = Some v ->
  environment.walk depth e name s = Done (Some v) s.
Proof. intros HE Hv. destruct depth; cbn; rewrite HE, Hv; reflexivity. Qed.

Lemma walk_unbound (depth : nat) (e : N) (name : string) (s : State)
    (E : object.Environment) :
  heap s !! e = Some E ->
  object.store E !! name = None ->
  object.outer E = None ->
  environment.walk depth e name s = Done None s.
Proof. intros HE Hv Ho. destruct depth; cbn; rewrite HE, Hv, Ho; reflexivity. Qed.

Lemma Get_local (e : N) (name : string) (s : State) (E : object.Environment)
    (v : object.Object) :
  heap s !! e = Some E ->
  object.store E !! name = Some v ->
  environment.Get e name s = Done (Some v) s.
Proof. intros HE Hv. exact (walk_local _ e name s E v HE Hv). Qed.

Lemma Get_outer (e o : N) (name : string) (s : State)
    (E Eo : object.Environment) (v : object.Object) :
  heap s !! e = Some E ->
  object.store E !! name = None ->
  object.outer E = Some o ->
  heap s !! o = Some Eo ->
  object.store Eo !! name = Some v ->
  environment.Get e name s = Done (Some v) s.
Proof.
  intros HE Hv Ho HEo Hvo. unfold environment.Get.
  destruct (size (heap s)) as [|d] eqn:Hsize.
  - exfalso. apply (map_size_ne_0_lookup_2 (heap s) e); [|exact Hsize].
    rewrite HE. eauto.
  - cbn [environment.walk]. rewrite HE, Hv, Ho.
    exact (walk_local d o name s Eo v HEo Hvo).
Qed.

Section Names.

Variable mapRange : list (ast.Node * ast.Node) -> list (ast.Node * ast.Node).
Variable builtins : string -> option (list object.Object -> M object.Object).
Variable hashString : string -> N.

Lemma Eval_identifier (n : nat) (name : string) (env : N) (s : State)
    (v : object.Object) :
  environment.Get env name s = Done (Some v) s ->
  Eval mapRange builtins hashString (S n) (ast.Identifier name) env s = Done v s.
Proof.
  intros HG. rewrite Eval_S. unfold EvalNode, evalIdentifier.
  rewrite (bind_Done _ _ _ _ _ HG). reflexivity.
Qed.

(** X12.  An identifier is looked up in the environment first, then among the
    built-ins.  A binding in the environment, or failing that in the
    environment that encloses it, is the result even when a built-in has
    the same name.  A name bound nowhere evaluates to the built-in of that
    name if there is one, and else to the Error
    [identifier not found: name]. *)
Theorem identifier_resolution_order (n : nat) (name : string) (env : N)
    (s : State) (E : object.Environment) :
  heap s !! env = Some E ->
  (forall v,
     object.store E !! name = Some v ->
     Eval mapRange builtins hashString (S n) (ast.Identifier name) env s
     = Done v s)
  /\ (forall o Eo v,
        object.store E !! name = None ->
        object.outer E = Some o ->
        heap s !! o = Some Eo ->
        object.store Eo !! name = Some v ->
        Eval mapRange builtins hashString (S n) (ast.Identifier name) env s
        = Done v s)
  /\ (object.store E !! name = None -> object.outer E = None ->
      Eval mapRange builtins hashString (S n) (ast.Identifier name) env s
      = match builtins name with
        | Some _ => Done (object.Builtin name) s
        | None =>
            Done (object.Error (next s) ("identifier not found: " +:+ name))
              (allocated s)
        end).
Proof.
  intros HE. split; [|split].
  - intros v Hv. apply Eval_identifier. exact (Get_local env name s E v HE Hv).
  - intros o Eo v Hv Ho HEo Hvo. apply Eval_identifier.
    exact (Get_outer env o name s E Eo v HE Hv Ho HEo Hvo).
  - intros Hv Ho. rewrite Eval_S. unfold EvalNode, evalIdentifier.
    rewrite (bind_Done _ _ s s None)
      by exact (walk_unbound _ env name s E HE Hv Ho).
    destruct (builtins name); reflexivity.
Qed.

(** X13.  After a let statement whose value is no Error, the name evaluates
    to the very object the value expression gave, same address, with any
    fuel, and shadows a built-in of that name; the other names of the
    environment keep their bindings. *)
Theorem let_then_identifier (n : nat) (Name : string) (Value : ast.Node)
    (env : N) (s s1 : State) (val : object.Object) (E : object.Environment) :
  Eval mapRange builtins hashString n Value env s = Done val s1 ->
  isError val = false ->
  heap s1 !! env = Some E ->
  exists s2,
    Eval mapRange builtins hashString (S n) (ast.LetStatement Name Value) env s
      = Done object.Nil s2
    /\ (forall m,
          Eval mapRange builtins hashString (S m) (ast.Identifier Name) env s2
          = Done val s2)
    /\ (forall other v,
          other <> Name ->
          object.store E !! other = Some v ->
          forall m,
            Eval mapRange builtins hashString (S m) (ast.Identifier other) env s2
            = Done v s2).
Proof.
  intros Hv Hval HE.
  eexists. split; [exact (Eval_let _ _ _ n Name Value env s s1 val E Hv Hval HE)|].
  split.
  - intros m. apply Eval_identifier.
    eapply Get_local; [cbn [heap]; apply lookup_insert_eq|].
    cbn [object.store]. apply lookup_insert_eq.
  - intros other v Hne Hother m. apply Eval_identifier.
    eapply Get_local; [cbn [heap]; apply lookup_insert_eq|].
    cbn [object.store]. rewrite lookup_insert_ne by congruence. exact Hother.
Qed.

End Names.

(** With a built-in named [len], the name [len] bound in the environment still
    evaluates to its binding. *)
Lemma identifier_resolution_order_witness :
  Eval sourceOrder (fun name => if String.eqb name "len" then Some (fun _ => ret NULL) else None)
    codeSum 1 (ast.Identifier "len") 0%N
    (mkState {[ 0%N := object.mkEnvironment {[ "len" := TRUE ]} None ]} 1)
  = Done TRUE
      (mkState {[ 0%N := object.mkEnvironment {[ "len" := TRUE ]} None ]} 1).
Proof.
  exact (proj1 (identifier_resolution_order sourceOrder
                  (fun name => if String.eqb name "len" then Some (fun _ => ret NULL) else None)
                  codeSum 0 "len" 0%N
                  (mkState {[ 0%N := object.mkEnvironment {[ "len" := TRUE ]} None ]} 1)
                  (object.mkEnvironment {[ "len" := TRUE ]} None) eq_refl)
           TRUE eq_refl).
Defined.

(** [let s = "a";] and then [s]. *)
Lemma let_then_identifier_witness :
  exists s2,
    run sourceOrder 2 (ast.LetStatement "s" (ast.StringLiteral "a"))
      = Done object.Nil s2
    /\ (forall m,
          Eval sourceOrder noBuiltins codeSum (S m) (ast.Identifier "s") 0%N s2
          = Done (object.String 1 "a") s2)
    /\ (forall other v,
          other <> "s" ->
          object.store (object.mkEnvironment ∅ None) !! other = Some v ->
          forall m,
            Eval sourceOrder noBuiltins codeSum (S m) (ast.Identifier other) 0%N s2
            = Done v s2).
Proof.
  exact (let_then_identifier sourceOrder noBuiltins codeSum 1 "s"
           (ast.StringLiteral "a") 0%N initial (allocated initial)
           (object.String 1 "a") (object.mkEnvironment ∅ None)
           eq_refl eq_refl eq_refl).
Defined.

(** ** Variables in a call *)

Lemma foldl_insert_other (l : list (string * object.Object)) (x : string) :
  forall st : gmap string object.Object,
    x ∉ l.*1 ->
    foldl (fun st xa => <[xa.1 := xa.2]> st) st l !! x = st !! x.
Proof.
  induction l as [|[y b] l IH]; intros st Hx; [reflexivity|].
  cbn [foldl fst snd]. cbn [fmap list_fmap fst] in Hx.
  apply not_elem_of_cons in Hx as [Hne Hx].
  rewrite (IH _ Hx). apply lookup_insert_ne. congruence.
Qed.

Lemma bindings_other (Parameters : list string) (args : list object.Object)
    (x : string) :
  x ∉ Parameters -> bindings Parameters args !! x = None.
Proof.
  intros Hx. unfold bindings. rewrite foldl_insert_other; [apply lookup_empty|].
  intros Hin. apply Hx.
  apply list_elem_of_fmap in Hin as ([y b] & -> & Hin).
  exact (elem_of_zip_l _ _ _ _ Hin).
Qed.

Lemma foldl_insert_at (Parameters : list string) :
  forall (args : list object.Object) (st : gmap string object.Object)
         (i : nat) (x : string) (a : object.Object),
    NoDup Parameters ->
    Parameters !! i = Some x ->
    args !! i = Some a ->
    foldl (fun st xa => <[xa.1 := xa.2]> st) st (zip Parameters args) !! x
    = Some a.
Proof.
  induction Parameters as [|y ps IH]; intros args st i x a Hnd Hx Ha.
  - rewrite lookup_nil in Hx. discriminate.
  - destruct args as [|b args]; [rewrite lookup_nil in Ha; discriminate|].
    pose proof (NoDup_cons_1_1 _ _ Hnd) as Hy.
    apply NoDup_cons_1_2 in Hnd.
    cbn [zip_with foldl fst snd].
    destruct i as [|i].
    + injection Hx as ->. injection Ha as ->.
      rewrite foldl_insert_other; [apply lookup_insert_eq|].
      intros Hin. apply Hy.
      apply list_elem_of_fmap in Hin as ([z c] & -> & Hin).
      exact (elem_of_zip_l _ _ _ _ Hin).
    + exact (IH args _ i x a Hnd Hx Ha).
Qed.

Section CallVariables.

Variable mapRange : list (ast.Node * ast.Node) -> list (ast.Node * ast.Node).
Variable builtins : string -> option (list object.Object -> M object.Object).
Variable hashString : string -> N.

(** A call of a function whose body is the one identifier [x]. *)
Lemma apply_identifier_body (k : nat) (fn : N) (Parameters : list string)
    (x : string) (Env : N) (args : list object.Object) (s : State)
    (v : object.Object) (t : string) :
  length Parameters <= length args ->
  environment.Get (next s) x
      (mkState
         (<[next s := object.mkEnvironment (bindings Parameters args) (Some Env)]>
            (heap s))
         (N.succ (next s)))
    = Done (Some v)
        (mkState
           (<[next s := object.mkEnvironment (bindings Parameters args) (Some Env)]>
              (heap s))
           (N.succ (next s))) ->
  object.Type' v = Some t ->
  applyFunction builtins (Eval mapRange builtins hashString (3 + k))
      (object.Function fn Parameters
         [ast.ExpressionStatement (ast.Identifier x)] Env) args s
  = Done (unwrapReturnValue v)
      (mkState
         (<[next s := object.mkEnvironment (bindings Parameters args) (Some Env)]>
            (heap s))
         (N.succ (next s))).
Proof.
  intros Hlen HG Ht.
  set (s' := mkState
               (<[next s := object.mkEnvironment (bindings Parameters args)
                              (Some Env)]> (heap s))
               (N.succ (next s))) in *.
  assert (H1 : Eval mapRange builtins hashString (S (S k))
                 (ast.ExpressionStatement (ast.Identifier x)) (next s) s'
               = Done v s').
  { rewrite Eval_S. unfold EvalNode. apply Eval_identifier. exact HG. }
  assert (H2 : Eval mapRange builtins hashString (S (S (S k)))
                 (ast.BlockStatement [ast.ExpressionStatement (ast.Identifier x)])
                 (next s) s'
               = Done v s').
  { rewrite Eval_S. unfold EvalNode, evalBlockStatement, evalBlockStatementFrom.
    rewrite (bind_Done _ _ _ _ _ H1).
    rewrite (bind_Done _ _ _ _ _ (typeOf_Some _ _ _ Ht)).
    destruct (_ || _); reflexivity. }
  unfold applyFunction.
  rewrite (bind_Done _ _ _ _ _ (extendedFunctionEnv_enough _ _ _ _ Hlen)).
  fold s'. change (3 + k) with (S (S (S k))).
  rewrite (bind_Done _ _ _ _ _ H2). reflexivity.
Qed.

(** X14.  A function reads a free variable of its body in its captured
    environment as that environment is when the call is made: with [x] no
    parameter and bound to [v] in the captured environment at the time of
    the call, a call of [fn(...) { x }] with enough arguments gives [v]
    (unwrapped, if [v] is a ReturnValue). *)
Theorem call_reads_captured_environment (k : nat) (fn : N)
    (Parameters : list string) (x : string) (Env : N)
    (args : list object.Object) (s : State) (E : object.Environment)
    (v : object.Object) (t : string) :
  length Parameters <= length args ->
  x ∉ Parameters ->
  Env <> next s ->
  heap s !! Env = Some E ->
  object.store E !! x = Some v ->
  object.Type' v = Some t ->
  applyFunction builtins (Eval mapRange builtins hashString (3 + k))
      (object.Function fn Parameters
         [ast.ExpressionStatement (ast.Identifier x)] Env) args s
  = Done (unwrapReturnValue v)
      (mkState
         (<[next s := object.mkEnvironment (bindings Parameters args) (Some Env)]>
            (heap s))
         (N.succ (next s))).
Proof.
  intros Hlen Hx Hfresh HE Hv Ht.
  apply (apply_identifier_body k fn Parameters x Env args s v t Hlen); [|exact Ht].
  eapply Get_outer.
  - cbn [heap]. apply lookup_insert_eq.
  - cbn [object.store]. exact (bindings_other Parameters args x Hx).
  - reflexivity.
  - cbn [heap]. rewrite lookup_insert_ne by congruence. exact HE.
  - exact Hv.
Qed.

(** X15.  A parameter shadows the captured environment: with distinct
    parameter names, the parameter at position [i] evaluates in the body to
    the argument at position [i], whatever the captured environment binds
    that name to, and the call leaves every environment that existed
    before it as it was. *)
Theorem parameter_is_its_argument (k : nat) (fn : N)
    (Parameters : list string) (i : nat) (x : string) (Env : N)
    (args : list object.Object) (s : State) (a : object.Object) (t : string) :
  length Parameters <= length args ->
  NoDup Parameters ->
  Parameters !! i = Some x ->
  args !! i = Some a ->
  object.Type' a = Some t ->
  exists s',
    applyFunction builtins (Eval mapRange builtins hashString (3 + k))
        (object.Function fn Parameters
           [ast.ExpressionStatement (ast.Identifier x)] Env) args s
    = Done (unwrapReturnValue a) s'
    /\ (forall e, e <> next s -> heap s' !! e = heap s !! e).
Proof.
  intros Hlen Hnd Hx Ha Ht. eexists. split.
  - apply (apply_identifier_body k fn Parameters x Env args s a t Hlen);
      [|exact Ht].
    eapply Get_local.
    + cbn [heap]. apply lookup_insert_eq.
    + cbn [object.store]. unfold bindings.
      exact (foldl_insert_at Parameters args ∅ i x a Hnd Hx Ha).
  - intros e He. cbn [heap]. apply lookup_insert_ne. congruence.
Qed.

End CallVariables.

(** [let f = fn() { x }; let x = 5; f()] is 5: [x] was bound after [f] was
    made. *)
Example scenario_late_binding :
  value
    (run sourceOrder 6
       (ast.Program
          [ast.LetStatement "f"
             (ast.FunctionLiteral []
                [ast.ExpressionStatement (ast.Identifier "x")]);
           ast.LetStatement "x" (ast.IntegerLiteral 5);
           ast.ExpressionStatement
             (ast.CallExpression (ast.Identifier "f") [])]))
  = Some (object.Integer 2 5).
Proof. vm_compute. reflexivity. Qed.

Lemma call_reads_captured_environment_witness :
  applyFunction noBuiltins (Eval sourceOrder noBuiltins codeSum 3)
    (object.Function 1 [] [ast.ExpressionStatement (ast.Identifier "x")] 0) []
    (mkState {[ 0%N := object.mkEnvironment {[ "x" := object.Integer 2 5 ]} None ]} 3)
  = Done (object.Integer 2 5)
      (mkState
         (<[3%N := object.mkEnvironment (bindings [] []) (Some 0%N)]>
            {[ 0%N := object.mkEnvironment {[ "x" := object.Integer 2 5 ]} None ]})
         4).
Proof.
  refine (call_reads_captured_environment sourceOrder noBuiltins codeSum 0 1%N
            [] "x" 0%N []
            (mkState {[ 0%N := object.mkEnvironment {[ "x" := object.Integer 2 5 ]} None ]} 3)
            (object.mkEnvironment {[ "x" := object.Integer 2 5 ]} None)
            (object.Integer 2 5) object.INTEGER_OBJ _ _ _ eq_refl eq_refl eq_refl).
  - cbn. lia.
  - apply not_elem_of_nil.
  - discriminate.
Defined.

(** [fn(x, y) { y }] applied to 1 and 2, where the captured environment binds
    [y] to [true]. *)
Lemma parameter_is_its_argument_witness :
  exists s',
    applyFunction noBuiltins (Eval sourceOrder noBuiltins codeSum 3)
      (object.Function 1 ["x"; "y"]
         [ast.ExpressionStatement (ast.Identifier "y")] 0)
      [object.Integer 2 1; object.Integer 3 2]
      (mkState {[ 0%N := object.mkEnvironment {[ "y" := TRUE ]} None ]} 4)
    = Done (object.Integer 3 2) s'
    /\ (forall e, e <> 4%N ->
          heap s' !! e
          = ({[ 0%N := object.mkEnvironment {[ "y" := TRUE ]} None ]}
              : gmap N object.Environment) !! e).
Proof.
  refine (parameter_is_its_argument sourceOrder noBuiltins codeSum 0 1%N
            ["x"; "y"] 1 "y" 0%N [object.Integer 2 1; object.Integer 3 2]
            (mkState {[ 0%N := object.mkEnvironment {[ "y" := TRUE ]} None ]} 4)
            (object.Integer 3 2) object.INTEGER_OBJ _ _ eq_refl eq_refl eq_refl).
  - cbn. lia.
  - apply NoDup_cons_2; [|apply NoDup_singleton].
    intros H. apply list_elem_of_singleton in H. discriminate.
Defined.

(** ** The nil interface *)

Section Nil.

Variable mapRange : list (ast.Node * ast.Node) -> list (ast.Node * ast.Node).
Variable builtins : string -> option (list object.Object -> M object.Object).
Variable hashString : string -> N.


End Nil.


(** ** Errors in a hash literal *)

Section HashErrors.

Variable mapRange : list (ast.Node * ast.Node) -> list (ast.Node * ast.Node).
Variable builtins : string -> option (list object.Object -> M object.Object).
Variable hashString : string -> N.

(** The entries that evaluate leave the loop of [evalHashLiteral] at the
    next entry. *)
Lemma evalHashPairs_prefix (ev : ast.Node -> N -> M object.Object) (env : N)
    (pre rest : list (ast.Node * ast.Node)) :
  forall (s s1 : State)
         (pairs : gmap (string * N) (object.Object * object.Object))
         (kvs : list (object.Object * object.Object)),
    evalEntries hashString ev env pre s = Some (kvs, s1) ->
    evalHashPairs hashString ev (pre ++ rest) env pairs s
    = evalHashPairs hashString ev rest env
        (foldl (insertPair hashString) pairs kvs) s1.
Proof.
  induction pre as [|[keyNode valueNode] pre IH]; intros s s1 pairs kvs H.
  - cbn in H. injection H as <- <-. reflexivity.
  - cbn [evalEntries] in H. cbn [app evalHashPairs].
    destruct (ev keyNode env s) as [key sa| |] eqn:Hkey; try discriminate.
    rewrite (bind_Done _ _ _ _ _ Hkey).
    destruct (isError key); [discriminate|].
    destruct (object.HashKeyOf hashString key) as [hashed|] eqn:Hhash;
      [|discriminate].
    destruct (ev valueNode env sa) as [value sb| |] eqn:Hvalue; try discriminate.
    rewrite (bind_Done _ _ _ _ _ Hvalue).
    destruct (isError value); [discriminate|].
    destruct (evalEntries hashString ev env pre sb) as [[kvs' sc]|] eqn:Hrest;
      [|discriminate].
    injection H as <- <-.
    rewrite (IH _ _ (<[hashed := (key, value)]> pairs) _ Hrest).
    cbn [foldl]. rewrite (insertPair_hashable _ _ _ _ _ Hhash). reflexivity.
Qed.

(** X17.  In a hash literal, after entries that evaluate, the first entry
    that goes wrong decides the result, and the map built so far is
    dropped.  A key that is an Error is the result.  A key of a type [t]
    other than Integer, Boolean and String gives the Error
    [unusable as hash key: t], and its value expression is not evaluated.
    A value that is an Error, under a hashable key, is the result. *)
Theorem hash_literal_errors (n : nat) (Pairs pre post : list (ast.Node * ast.Node))
    (keyNode valueNode : ast.Node) (env : N) (s s1 s2 : State)
    (kvs : list (object.Object * object.Object)) (key : object.Object)
    (t : string) :
  mapRange Pairs = pre ++ (keyNode, valueNode) :: post ->
  evalEntries hashString (Eval mapRange builtins hashString n) env pre s
    = Some (kvs, s1) ->
  Eval mapRange builtins hashString n keyNode env s1 = Done key s2 ->
  object.Type' key = Some t ->
  (t = object.ERROR_OBJ ->
     Eval mapRange builtins hashString (S n) (ast.HashLiteral Pairs) env s
     = Done key s2)
  /\ (t <> object.ERROR_OBJ -> t <> object.INTEGER_OBJ ->
      t <> object.BOOLEAN_OBJ -> t <> object.STRING_OBJ ->
      Eval mapRange builtins hashString (S n) (ast.HashLiteral Pairs) env s
      = Done (object.Error (next s2) ("unusable as hash key: " +:+ t))
          (allocated s2))
  /\ (forall hashed err s3,
        object.HashKeyOf hashString key = Some hashed ->
        Eval mapRange builtins hashString n valueNode env s2 = Done err s3 ->
        isError err = true ->
        Eval mapRange builtins hashString (S n) (ast.HashLiteral Pairs) env s
        = Done err s3).
Proof.
  intros Horder Hpre Hkey Ht.
  split; [|split].
  - intros ->. rewrite Eval_S. unfold EvalNode, evalHashLiteral.
    rewrite Horder, (bind_Done _ _ s s2 (inl key)); [reflexivity|].
    rewrite (evalHashPairs_prefix _ _ _ _ _ _ _ _ Hpre). cbn [evalHashPairs].
    rewrite (bind_Done _ _ _ _ _ Hkey).
    unfold isError. rewrite Ht. reflexivity.
  - intros He Hi Hb Hs. rewrite Eval_S. unfold EvalNode, evalHashLiteral.
    rewrite Horder,
      (bind_Done _ _ s (allocated s2)
         (inl (object.Error (next s2) ("unusable as hash key: " +:+ t))));
      [reflexivity|].
    rewrite (evalHashPairs_prefix _ _ _ _ _ _ _ _ Hpre). cbn [evalHashPairs].
    rewrite (bind_Done _ _ _ _ _ Hkey).
    assert (Herr : isError key = false).
    { unfold isError. rewrite Ht. apply String.eqb_neq. exact He. }
    rewrite Herr.
    assert (Hno : object.HashKeyOf hashString key = None).
    { destruct key; cbn in Ht; try discriminate; injection Ht as <-;
        try reflexivity; contradiction. }
    rewrite Hno, (bind_Done _ _ _ _ _ (typeOf_Some _ _ _ Ht)). reflexivity.
  - intros hashed err s3 Hhash Hvalue Herr.
    rewrite Eval_S. unfold EvalNode, evalHashLiteral.
    rewrite Horder, (bind_Done _ _ s s3 (inl err)); [reflexivity|].
    rewrite (evalHashPairs_prefix _ _ _ _ _ _ _ _ Hpre). cbn [evalHashPairs].
    rewrite (bind_Done _ _ _ _ _ Hkey).
    assert (Hk : isError key = false).
    { destruct key; cbn in Hhash; try discriminate; reflexivity. }
    rewrite Hk, Hhash, (bind_Done _ _ _ _ _ Hvalue), Herr. reflexivity.
Qed.

End HashErrors.

(** [{1: 2, fn() { }: foobar}], visited in source order: the function is
    unusable as a key, and [foobar] is never looked up. *)
Lemma hash_literal_errors_witness :
  run sourceOrder 2
    (ast.HashLiteral
       [(ast.IntegerLiteral 1, ast.IntegerLiteral 2);
        (ast.FunctionLiteral [] [], ast.Identifier "foobar")])
  = Done (object.Error 4 "unusable as hash key: FUNCTION")
      (mkState (heap initial) 5).
Proof.
  refine (proj1 (proj2
            (hash_literal_errors sourceOrder noBuiltins codeSum 1
               [(ast.IntegerLiteral 1, ast.IntegerLiteral 2);
                (ast.FunctionLiteral [] [], ast.Identifier "foobar")]
               [(ast.IntegerLiteral 1, ast.IntegerLiteral 2)] []
               (ast.FunctionLiteral [] []) (ast.Identifier "foobar") 0%N initial
               (mkState (heap initial) 3) (mkState (heap initial) 4)
               [(object.Integer 1 1, object.Integer 2 2)]
               (object.Function 3 [] [] 0) object.FUNCTION_OBJ
               eq_refl eq_refl eq_refl eq_refl)) _ _ _ _); discriminate.
Defined.

(** ** Environments are never lost *)

Lemma keeps_refl (s : State) : keeps s s.
Proof. split; [lia|]. intros e E HE. exists E. auto. Qed.

Lemma keeps_trans (s1 s2 s3 : State) : keeps s1 s2 -> keeps s2 s3 -> keeps s1 s3.
Proof.
  intros [Hn1 H1] [Hn2 H2]. split; [lia|].
  intros e E HE.
  destruct (H1 e E HE) as (E' & HE' & Ho' & Hs').
  destruct (H2 e E' HE') as (E'' & HE'' & Ho'' & Hs'').
  exists E''. split; [exact HE''|]. split; [congruence|].
  intros name Hname. apply Hs'', Hs', Hname.
Qed.

Lemma steady_ret {A : Type} (a : A) : steady (ret a).
Proof.
  intros s a' s' Hf H. injection H as <- <-. split; [apply keeps_refl|exact Hf].
Qed.

Lemma steady_panic {A : Type} (f : Fault) : steady (@panic A f).
Proof. intros s a s' _ H. discriminate. Qed.

Lemma steady_bind {A B : Type} (m : M A) (k : A -> M B) :
  steady m -> (forall a, steady (k a)) -> steady (bind m k).
Proof.
  intros Hm Hk s b s' Hf H. unfold bind in H.
  destruct (m s) as [a s1| |] eqn:E; try discriminate.
  destruct (Hm s a s1 Hf E) as [K1 F1].
  destruct (Hk a s1 b s' F1 H) as [K2 F2].
  split; [exact (keeps_trans _ _ _ K1 K2)|exact F2].
Qed.

Lemma steady_alloc : steady alloc.
Proof.
  intros s a s' Hf H. injection H as <- <-. split.
  - split; [cbn; lia|]. intros e E HE. exists E. auto.
  - intros e He. cbn in *. specialize (Hf e He). lia.
Qed.

Lemma steady_Get (e : N) (name : string) : steady (environment.Get e name).
Proof.
  assert (Hwalk : forall d e' s a s',
            environment.walk d e' name s = Done a s' -> s' = s).
  { induction d as [|d IH]; intros e' s a s' H; cbn in H;
      destruct (heap s !! e') as [E|]; try discriminate;
      destruct (object.store E !! name); try (injection H as _ <-; reflexivity);
      destruct (object.outer E); try (injection H as _ <-; reflexivity);
      [discriminate|exact (IH _ _ _ _ H)]. }
  intros s a s' Hf H. unfold environment.Get in H.
  rewrite (Hwalk _ _ _ _ _ H). split; [apply keeps_refl|exact Hf].
Qed.

Lemma steady_Set (e : N) (name : string) (val : object.Object) :
  steady (environment.Set' e name val).
Proof.
  intros s a s' Hf H. unfold environment.Set' in H.
  destruct (heap s !! e) as [E|] eqn:HE; [|discriminate].
  injection H as _ <-. split.
  - split; [cbn; lia|]. intros e' E' HE'. cbn [heap].
    destruct (decide (e' = e)) as [->|Hne].
    + rewrite lookup_insert_eq. eexists. split; [reflexivity|].
      rewrite HE in HE'. injection HE' as <-. split; [reflexivity|].
      intros name' Hname'. cbn [object.store].
      destruct (decide (name' = name)) as [->|Hn].
      * rewrite lookup_insert_eq. eauto.
      * rewrite lookup_insert_ne by congruence. exact Hname'.
    + rewrite lookup_insert_ne by congruence. exists E'. auto.
  - intros e' He'. cbn [heap next] in *.
    destruct (decide (e' = e)) as [->|Hne].
    + apply Hf. rewrite HE. eauto.
    + rewrite lookup_insert_ne in He' by congruence. exact (Hf e' He').
Qed.

Lemma steady_NewEnclosedEnvironment (outer : N) :
  steady (environment.NewEnclosedEnvironment outer).
Proof.
  intros s a s' Hf H. injection H as <- <-. split.
  - split; [cbn; lia|]. intros e E HE. cbn [heap].
    assert (e <> next s).
    { intros ->. specialize (Hf (next s)). rewrite HE in Hf.
      specialize (Hf ltac:(eauto)). lia. }
    rewrite lookup_insert_ne by congruence. exists E. auto.
  - intros e He. cbn [heap next] in *.
    destruct (decide (e = next s)) as [->|Hne]; [lia|].
    rewrite lookup_insert_ne in He by congruence. specialize (Hf e He). lia.
Qed.

Ltac steady_step :=
  first
    [ apply steady_ret
    | apply steady_panic
    | apply steady_alloc
    | apply steady_Get
    | apply steady_Set
    | apply steady_NewEnclosedEnvironment
    | apply steady_bind; [|intros ?]
    | match goal with
      | |- steady (if ?b then _ else _) => destruct b
      | |- steady (match ?x with _ => _ end) => destruct x
      end ].

Lemma steady_newError (message : string) : steady (newError message).
Proof. unfold newError. repeat steady_step. Qed.

Lemma steady_typeOf (o : object.Object) : steady (typeOf o).
Proof. unfold typeOf. repeat steady_step. Qed.

Lemma steady_evalPrefixExpression (operator : string) (right : object.Object) :
  steady (evalPrefixExpression operator right).
Proof.
  unfold evalPrefixExpression, evalMinusOperator, newError, typeOf.
  repeat steady_step.
Qed.

Lemma steady_evalInfixExpression (left : object.Object) (operator : string)
    (right : object.Object) :
  steady (evalInfixExpression left operator right).
Proof.
  unfold evalInfixExpression, evalIntegerInfixExpression,
    evalStringInfixExpression, integer, newError, typeOf.
  repeat steady_step.
Qed.

Lemma steady_evalIndexExpression (left index : object.Object) :
  steady (evalIndexExpression left index).
Proof.
  unfold evalIndexExpression, evalArrayIndexExpression, newError, typeOf.
  repeat steady_step.
Qed.

Lemma steady_bindParameters (env : N) (Parameters : list string) :
  forall paramIdx args, steady (bindParameters env Parameters paramIdx args).
Proof.
  induction Parameters as [|param rest IH]; intros paramIdx args;
    cbn [bindParameters].
  - apply steady_ret.
  - destruct (args !! paramIdx); [|apply steady_panic].
    apply steady_bind; [apply steady_Set|]. intros _. apply IH.
Qed.

Section Steady.

Variable mapRange : list (ast.Node * ast.Node) -> list (ast.Node * ast.Node).
Variable builtins : string -> option (list object.Object -> M object.Object).
Variable hashString : string -> N.

Hypothesis builtins_steady :
  forall name Fn args, builtins name = Some Fn -> steady (Fn args).

Section OneLevel.

Variable ev : ast.Node -> N -> M object.Object.
Hypothesis Hev : forall node env, steady (ev node env).

Lemma steady_evalExpressionsFrom (exps : list ast.Node) (env : N) :
  forall result, steady (evalExpressionsFrom ev exps env result).
Proof using Hev.
  induction exps as [|e rest IH]; intros result; cbn [evalExpressionsFrom].
  - apply steady_ret.
  - apply steady_bind; [apply Hev|]. intros evaluated.
    destruct (isError evaluated); [apply steady_ret|apply IH].
Qed.

Lemma steady_evalHashPairs (entries : list (ast.Node * ast.Node)) (env : N) :
  forall pairs, steady (evalHashPairs hashString ev entries env pairs).
Proof using Hev.
  induction entries as [|[keyNode valueNode] rest IH]; intros pairs;
    cbn [evalHashPairs].
  - apply steady_ret.
  - apply steady_bind; [apply Hev|]. intros key.
    destruct (isError key); [apply steady_ret|].
    destruct (object.HashKeyOf hashString key).
    + apply steady_bind; [apply Hev|]. intros value.
      destruct (isError value); [apply steady_ret|apply IH].
    + unfold newError, typeOf. repeat steady_step.
Qed.

Lemma steady_evalProgramFrom (Statements : list ast.Node) (env : N) :
  forall last, steady (evalProgramFrom ev Statements env last).
Proof using Hev.
  induction Statements as [|stmt rest IH]; intros last; cbn [evalProgramFrom].
  - apply steady_ret.
  - apply steady_bind; [apply Hev|]. intros result.
    destruct result; first [apply steady_ret | apply IH].
Qed.

Lemma steady_evalBlockStatementFrom (Statements : list ast.Node) (env : N) :
  forall last, steady (evalBlockStatementFrom ev Statements env last).
Proof using Hev.
  induction Statements as [|stmt rest IH]; intros last;
    cbn [evalBlockStatementFrom].
  - apply steady_ret.
  - apply steady_bind; [apply Hev|]. intros result.
    apply steady_bind; [apply steady_typeOf|]. intros t.
    destruct (_ || _); [apply steady_ret|apply IH].
Qed.

Lemma steady_applyFunction (fn : object.Object) (args : list object.Object) :
  steady (applyFunction builtins ev fn args).
Proof using Hev builtins_steady.
  destruct fn as [| | | | | | |ref Parameters Body Env|name| |];
    try (unfold applyFunction, newError, typeOf; repeat steady_step; fail).
  - unfold applyFunction, extendedFunctionEnv.
    apply steady_bind.
    + apply steady_bind; [apply steady_NewEnclosedEnvironment|]. intros env.
      apply steady_bind; [apply steady_bindParameters|]. intros _.
      apply steady_ret.
    + intros extendedEnv. apply steady_bind; [apply Hev|]. intros evaluated.
      apply steady_ret.
  - unfold applyFunction. destruct (builtins name) as [Fn|] eqn:HFn.
    + exact (builtins_steady name Fn args HFn).
    + apply steady_panic.
Qed.

Lemma steady_EvalNode (node : ast.Node) (env : N) :
  steady (EvalNode mapRange builtins hashString ev node env).
Proof using Hev builtins_steady.
  destruct node; unfold EvalNode; cbv zeta.
  - apply steady_evalProgramFrom.
  - apply steady_bind; [apply Hev|]. intros val. repeat steady_step.
  - apply steady_bind; [apply Hev|]. intros value. repeat steady_step.
  - apply steady_evalBlockStatementFrom.
  - apply Hev.
  - unfold evalIfExpression.
    apply steady_bind; [apply Hev|]. intros condition.
    destruct (isError condition); [apply steady_ret|].
    destruct (isTruthy condition); [apply Hev|].
    destruct Alternative; [apply Hev|apply steady_ret].
  - apply steady_bind; [apply Hev|]. intros right.
    destruct (isError right); [apply steady_ret|].
    apply steady_evalPrefixExpression.
  - apply steady_bind; [apply Hev|]. intros left.
    destruct (isError left); [apply steady_ret|].
    apply steady_bind; [apply Hev|]. intros right.
    destruct (isError right); [apply steady_ret|].
    apply steady_evalInfixExpression.
  - repeat steady_step.
  - repeat steady_step.
  - apply steady_ret.
  - unfold evalIdentifier.
    apply steady_bind; [apply steady_Get|]. intros found.
    destruct found; [apply steady_ret|].
    destruct (builtins Value); [apply steady_ret|apply steady_newError].
  - repeat steady_step.
  - apply steady_bind; [apply Hev|]. intros function.
    destruct (isError function); [apply steady_ret|].
    apply steady_bind; [apply steady_evalExpressionsFrom|]. intros args.
    destruct args as [|arg [|arg' args]]; try apply steady_applyFunction.
    destruct (isError arg); [apply steady_ret|apply steady_applyFunction].
  - apply steady_bind; [apply steady_evalExpressionsFrom|]. intros elements.
    destruct elements as [|element [|element' elements]]; repeat steady_step.
  - apply steady_bind; [apply Hev|]. intros left.
    destruct (isError left); [apply steady_ret|].
    apply steady_bind; [apply Hev|]. intros index.
    destruct (isError index); [apply steady_ret|].
    apply steady_evalIndexExpression.
  - unfold evalHashLiteral.
    apply steady_bind; [apply steady_evalHashPairs|]. intros r.
    destruct r; repeat steady_step.
Qed.

End OneLevel.

Lemma steady_Eval (n : nat) :
  forall node env, steady (Eval mapRange builtins hashString n node env).
Proof using builtins_steady.
  induction n as [|n IH]; intros node env.
  - intros s a s' _ H. discriminate.
  - change (steady
              (EvalNode mapRange builtins hashString
                 (Eval mapRange builtins hashString n) node env)).
    apply steady_EvalNode. exact IH.
Qed.


End Steady.

Lemma fresh_initial : fresh initial.
Proof.
  intros e [E He]. unfold initial in *. cbn [heap next] in *.
  apply lookup_singleton_Some in He as [<- _]. lia.
Qed.


(** ** Evaluation without calls comes to an end *)

Lemma walk_state (name : string) :
  forall d e s a s', environment.walk d e name s = Done a s' -> s' = s.
Proof.
  induction d as [|d IH]; intros e s a s' H; cbn in H;
    destruct (heap s !! e) as [E|]; try discriminate;
    destruct (object.store E !! name); try (injection H as _ <-; reflexivity);
    destruct (object.outer E); try (injection H as _ <-; reflexivity);
    [discriminate|exact (IH _ _ _ _ H)].
Qed.

(** On finite chains the walk of [Get] needs no more steps than there are
    environments below the one it starts from. *)
Lemma walk_ends (name : string) (s : State) :
  chained s ->
  forall d e,
    size (filter (fun k => (k < e)%N) (dom (heap s))) <= d ->
    environment.walk d e name s <> OutOfFuel.
Proof.
  intros Hch. induction d as [|d IH]; intros e Hd; cbn [environment.walk];
    destruct (heap s !! e) as [E|] eqn:HE; try discriminate;
    destruct (object.store E !! name); try discriminate;
    destruct (object.outer E) as [o|] eqn:Ho; try discriminate;
    destruct (Hch e E o HE Ho) as [Hlt Hin];
    assert (Hsub : filter (fun k => (k < o)%N) (dom (heap s))
                     ⊂ filter (fun k => (k < e)%N) (dom (heap s)))
      by (split;
          [ intros k Hk; apply elem_of_filter in Hk as [Hk1 Hk2];
            apply elem_of_filter; split; [lia|exact Hk2]
          | intros Hall;
            assert (Ho' : o ∈ filter (fun k => (k < o)%N) (dom (heap s)))
              by (apply Hall, elem_of_filter; split;
                  [exact Hlt|apply elem_of_dom; exact Hin]);
            apply elem_of_filter in Ho' as [Ho' _]; lia ]);
    apply subset_size in Hsub.
  - lia.
  - apply IH. lia.
Qed.

Lemma ends_ret {A : Type} (a : A) : ends (ret a).
Proof.
  intros s Hch. split; [discriminate|]. intros a' s' H. injection H as _ <-.
  exact Hch.
Qed.

Lemma ends_panic {A : Type} (f : Fault) : ends (@panic A f).
Proof. intros s Hch. split; [discriminate|]. intros a s' H. discriminate. Qed.

Lemma ends_bind {A B : Type} (m : M A) (k : A -> M B) :
  ends m -> (forall a, ends (k a)) -> ends (bind m k).
Proof.
  intros Hm Hk s Hch. unfold bind.
  destruct (Hm s Hch) as [Hne Hnext].
  destruct (m s) as [a s1| |] eqn:E.
  - exact (Hk a s1 (Hnext a s1 eq_refl)).
  - split; [discriminate|]. intros b s' H. discriminate.
  - contradiction.
Qed.

Lemma ends_alloc : ends alloc.
Proof.
  intros s Hch. split; [discriminate|]. intros a s' H. injection H as _ <-.
  exact Hch.
Qed.

Lemma ends_Get (e : N) (name : string) : ends (environment.Get e name).
Proof.
  intros s Hch. unfold environment.Get. split.
  - apply (walk_ends name s Hch).
    rewrite <- (size_dom (heap s)).
    apply subseteq_size. intros k Hk. apply elem_of_filter in Hk as [_ Hk].
    exact Hk.
  - intros a s' H. rewrite (walk_state name _ _ _ _ _ H). exact Hch.
Qed.

Lemma ends_Set (e : N) (name : string) (val : object.Object) :
  ends (environment.Set' e name val).
Proof.
  intros s Hch. unfold environment.Set'.
  destruct (heap s !! e) as [E|] eqn:HE.
  - split; [discriminate|]. intros a s' H. injection H as _ <-.
    intros e0 E0 o HE0 Ho. cbn [heap] in *.
    assert (Hold : exists E1, heap s !! e0 = Some E1 /\ object.outer E1 = Some o).
    { destruct (decide (e0 = e)) as [->|Hne].
      - rewrite lookup_insert_eq in HE0. injection HE0 as <-. eauto.
      - rewrite lookup_insert_ne in HE0 by congruence. eauto. }
    destruct Hold as (E1 & HE1 & Ho1).
    destruct (Hch e0 E1 o HE1 Ho1) as [Hlt Hin]. split; [exact Hlt|].
    destruct (decide (o = e)) as [->|Hne].
    + rewrite lookup_insert_eq. eauto.
    + rewrite lookup_insert_ne by congruence. exact Hin.
  - split; [discriminate|]. intros a s' H. discriminate.
Qed.

Ltac ends_step :=
  first
    [ apply ends_ret
    | apply ends_panic
    | apply ends_alloc
    | apply ends_Get
    | apply ends_Set
    | apply ends_bind; [|intros ?]
    | match goal with
      | |- ends (if ?b then _ else _) => destruct b
      | |- ends (match ?x with _ => _ end) => destruct x
      end ].

Lemma ends_evalPrefixExpression (operator : string) (right : object.Object) :
  ends (evalPrefixExpression operator right).
Proof.
  unfold evalPrefixExpression, evalMinusOperator, newError, typeOf.
  repeat ends_step.
Qed.

Lemma ends_evalInfixExpression (left : object.Object) (operator : string)
    (right : object.Object) :
  ends (evalInfixExpression left operator right).
Proof.
  unfold evalInfixExpression, evalIntegerInfixExpression,
    evalStringInfixExpression, integer, newError, typeOf.
  repeat ends_step.
Qed.

Lemma ends_evalIndexExpression (left index : object.Object) :
  ends (evalIndexExpression left index).
Proof.
  unfold evalIndexExpression, evalArrayIndexExpression, newError, typeOf.
  repeat ends_step.
Qed.

Lemma height_positive (node : ast.Node) : 1 <= height node.
Proof. destruct node; cbn [height]; lia. Qed.

Lemma children_bounded (l : list ast.Node) (n : nat) :
  forallb callFree l = true ->
  foldr (fun stmt h => Nat.max (height stmt) h) 0 l <= n ->
  Forall (fun node => callFree node = true /\ height node <= n) l.
Proof.
  induction l as [|a l IH]; intros Hc Hh; [constructor|].
  cbn [forallb foldr] in *. apply andb_true_iff in Hc as [Ha Hl].
  constructor; [split; [exact Ha|lia]|apply IH; [exact Hl|lia]].
Qed.

Lemma entries_bounded (l : list (ast.Node * ast.Node)) (n : nat) :
  forallb
    (fun entry =>
       match entry with
       | (keyNode, valueNode) => callFree keyNode && callFree valueNode
       end) l = true ->
  foldr
    (fun entry h =>
       match entry with
       | (keyNode, valueNode) =>
           Nat.max (Nat.max (height keyNode) (height valueNode)) h
       end) 0 l <= n ->
  Forall
    (fun entry =>
       (callFree entry.1 = true /\ height entry.1 <= n)
       /\ (callFree entry.2 = true /\ height entry.2 <= n)) l.
Proof.
  induction l as [|[k v] l IH]; intros Hc Hh; [constructor|].
  cbn [forallb foldr] in *. apply andb_true_iff in Hc as [Ha Hl].
  apply andb_true_iff in Ha as [Hk Hv].
  constructor; [cbn [fst snd]; repeat split; try assumption; lia|].
  apply IH; [exact Hl|lia].
Qed.

Section Ends.

Variable mapRange : list (ast.Node * ast.Node) -> list (ast.Node * ast.Node).
Variable builtins : string -> option (list object.Object -> M object.Object).
Variable hashString : string -> N.

Hypothesis mapRange_entries :
  forall Pairs entry, entry ∈ mapRange Pairs -> entry ∈ Pairs.

Section OneLevel.

Variable ev : ast.Node -> N -> M object.Object.
Variable env : N.

Lemma ends_evalExpressionsFrom (exps : list ast.Node) :
  Forall (fun e => ends (ev e env)) exps ->
  forall result, ends (evalExpressionsFrom ev exps env result).
Proof.
  induction 1 as [|e rest He _ IH]; intros result; cbn [evalExpressionsFrom].
  - apply ends_ret.
  - apply ends_bind; [exact He|]. intros evaluated.
    destruct (isError evaluated); [apply ends_ret|apply IH].
Qed.

Lemma ends_evalHashPairs (entries : list (ast.Node * ast.Node)) :
  Forall (fun entry => ends (ev entry.1 env) /\ ends (ev entry.2 env)) entries ->
  forall pairs, ends (evalHashPairs hashString ev entries env pairs).
Proof.
  induction 1 as [|[keyNode valueNode] rest [Hk Hv] _ IH]; intros pairs;
    cbn [evalHashPairs].
  - apply ends_ret.
  - apply ends_bind; [exact Hk|]. intros key.
    destruct (isError key); [apply ends_ret|].
    destruct (object.HashKeyOf hashString key).
    + apply ends_bind; [exact Hv|]. intros value.
      destruct (isError value); [apply ends_ret|apply IH].
    + unfold newError, typeOf. repeat ends_step.
Qed.

Lemma ends_evalProgramFrom (Statements : list ast.Node) :
  Forall (fun stmt => ends (ev stmt env)) Statements ->
  forall last, ends (evalProgramFrom ev Statements env last).
Proof.
  induction 1 as [|stmt rest Hs _ IH]; intros last; cbn [evalProgramFrom].
  - apply ends_ret.
  - apply ends_bind; [exact Hs|]. intros result.
    destruct result; first [apply ends_ret | apply IH].
Qed.

Lemma ends_evalBlockStatementFrom (Statements : list ast.Node) :
  Forall (fun stmt => ends (ev stmt env)) Statements ->
  forall last, ends (evalBlockStatementFrom ev Statements env last).
Proof.
  induction 1 as [|stmt rest Hs _ IH]; intros last;
    cbn [evalBlockStatementFrom].
  - apply ends_ret.
  - apply ends_bind; [exact Hs|]. intros result.
    apply ends_bind; [unfold typeOf; repeat ends_step|]. intros t.
    destruct (_ || _); [apply ends_ret|apply IH].
Qed.

End OneLevel.

Lemma ends_Eval (n : nat) :
  forall node env,
    callFree node = true ->
    height node <= n ->
    ends (Eval mapRange builtins hashString n node env).
Proof using mapRange_entries.
  induction n as [|n IH]; intros node env Hc Hh.
  - pose proof (height_positive node). lia.
  - change (ends
              (EvalNode mapRange builtins hashString
                 (Eval mapRange builtins hashString n) node env)).
    assert (Hlist : forall l,
              forallb callFree l = true ->
              foldr (fun stmt h => Nat.max (height stmt) h) 0 l <= n ->
              Forall (fun stmt =>
                        ends (Eval mapRange builtins hashString n stmt env)) l).
    { intros l Hl Hm. pose proof (children_bounded l n Hl Hm) as Hall.
      rewrite Forall_forall in Hall. apply Forall_forall. intros x Hx.
      destruct (Hall x Hx) as [Hx1 Hx2]. exact (IH x env Hx1 Hx2). }
    destruct node; cbn [callFree height] in Hc, Hh; unfold EvalNode; cbv zeta.
    + apply ends_evalProgramFrom, Hlist; [exact Hc|lia].
    + apply ends_bind; [apply IH; [exact Hc|lia]|]. intros val.
      repeat ends_step.
    + apply ends_bind; [apply IH; [exact Hc|lia]|]. intros value.
      repeat ends_step.
    + apply ends_evalBlockStatementFrom, Hlist; [exact Hc|lia].
    + apply IH; [exact Hc|lia].
    + apply andb_true_iff in Hc as [Hc Halt].
      apply andb_true_iff in Hc as [Hcond Hcons].
      unfold evalIfExpression.
      apply ends_bind; [apply IH; [exact Hcond|lia]|]. intros condition.
      destruct (isError condition); [apply ends_ret|].
      destruct (isTruthy condition).
      * apply IH; [exact Hcons|cbn [height]; lia].
      * destruct Alternative as [alternative|]; [|apply ends_ret].
        apply IH; [exact Halt|cbn [height]; lia].
    + apply ends_bind; [apply IH; [exact Hc|lia]|]. intros right.
      destruct (isError right); [apply ends_ret|].
      apply ends_evalPrefixExpression.
    + apply andb_true_iff in Hc as [Hl Hr].
      apply ends_bind; [apply IH; [exact Hl|lia]|]. intros left.
      destruct (isError left); [apply ends_ret|].
      apply ends_bind; [apply IH; [exact Hr|lia]|]. intros right.
      destruct (isError right); [apply ends_ret|].
      apply ends_evalInfixExpression.
    + repeat ends_step.
    + repeat ends_step.
    + apply ends_ret.
    + unfold evalIdentifier.
      apply ends_bind; [apply ends_Get|]. intros found.
      destruct found; [apply ends_ret|].
      destruct (builtins Value); [apply ends_ret|].
      unfold newError. repeat ends_step.
    + repeat ends_step.
    + discriminate.
    + apply ends_bind.
      * apply ends_evalExpressionsFrom, Hlist; [exact Hc|lia].
      * intros elements.
        destruct elements as [|element [|element' elements]]; repeat ends_step.
    + apply andb_true_iff in Hc as [Hl Hi].
      apply ends_bind; [apply IH; [exact Hl|lia]|]. intros left.
      destruct (isError left); [apply ends_ret|].
      apply ends_bind; [apply IH; [exact Hi|lia]|]. intros index.
      destruct (isError index); [apply ends_ret|].
      apply ends_evalIndexExpression.
    + unfold evalHashLiteral. apply ends_bind.
      * apply ends_evalHashPairs.
        pose proof (entries_bounded Pairs n Hc ltac:(lia)) as Hall.
        rewrite Forall_forall in Hall. apply Forall_forall.
        intros entry Hentry.
        pose proof (mapRange_entries Pairs entry
                      (proj2 (list_elem_of_In _ _) Hentry)) as Hin.
        destruct (Hall entry (proj1 (list_elem_of_In _ _) Hin))
          as [[Hk1 Hk2] [Hv1 Hv2]].
        split; apply IH; assumption.
      * intros r. destruct r; repeat ends_step.
Qed.

(** X19.  Evaluating a node that holds no call outside function bodies
    comes to an end, with a value or with a panic, within a call depth of
    [Eval] equal to the nesting depth of the node.  This holds from any
    state whose environment chains are finite, provided [range] visits
    only entries of the map; the chains are finite afterwards too, and more
    fuel gives the same outcome. *)
Theorem call_free_evaluation_ends (n : nat) (node : ast.Node) (env : N)
    (s : State) :
  callFree node = true ->
  height node <= n ->
  chained s ->
  ((exists v s',
      Eval mapRange builtins hashString n node env s = Done v s' /\ chained s')
   \/ exists f, Eval mapRange builtins hashString n node env s = Panicked f)
  /\ forall m,
       n <= m ->
       Eval mapRange builtins hashString m node env s
       = Eval mapRange builtins hashString n node env s.
Proof using mapRange_entries.
  intros Hc Hh Hch.
  destruct (ends_Eval n node env Hc Hh s Hch) as [Hne Hnext].
  split.
  - destruct (Eval mapRange builtins hashString n node env s) as [v s'|f|] eqn:E.
    + left. exists v, s'. split; [reflexivity|exact (Hnext v s' eq_refl)].
    + right. exists f. reflexivity.
    + contradiction.
  - intros m Hm.
    exact (Eval_fuel mapRange builtins hashString n m node env Hm s Hne).
Qed.

End Ends.

Lemma chained_initial : chained initial.
Proof.
  intros e E o HE Ho. unfold initial in HE. cbn [heap] in HE.
  apply lookup_singleton_Some in HE as [_ <-]. discriminate.
Qed.

(** The program [nested] has nesting depth 8: with fuel 11 it ends as it
    does with fuel 8. *)
Lemma call_free_evaluation_ends_witness :
  run sourceOrder 11 nested = run sourceOrder 8 nested.
Proof.
  refine (proj2 (call_free_evaluation_ends sourceOrder noBuiltins codeSum _ 8
                   nested 0%N initial eq_refl _ chained_initial) 11 _).
  - intros Pairs entry H. exact H.
  - vm_compute. lia.
  - lia.
Defined.

(** ** The value of a statement list *)

Section LastStatement.

Variable mapRange : list (ast.Node * ast.Node) -> list (ast.Node * ast.Node).
Variable builtins : string -> option (list object.Object -> M object.Object).
Variable hashString : string -> N.

(** X20.  When every statement gives a value that is neither nil, an Error
    nor a ReturnValue, a block, a program and a call of a function with
    that body all give the value of the last statement, the same object;
    the values of the statements before it are dropped. *)
Theorem last_statement_is_the_result (n : nat) (env : N) (pre : list ast.Node)
    (stmt : ast.Node) (v : object.Object) (s s1 s2 : State) :
  passes continues (Eval mapRange builtins hashString n) env pre s = Some s1 ->
  Eval mapRange builtins hashString n stmt env s1 = Done v s2 ->
  continues v = true ->
  Eval mapRange builtins hashString (S n) (ast.BlockStatement (pre ++ [stmt]))
      env s
    = Done v s2
  /\ Eval mapRange builtins hashString (S n) (ast.Program (pre ++ [stmt])) env s
     = Done v s2
  /\ (forall fn Parameters Env args s0,
        extendedFunctionEnv Parameters Env args s0 = Done env s ->
        applyFunction builtins (Eval mapRange builtins hashString (S n))
            (object.Function fn Parameters (pre ++ [stmt]) Env) args s0
        = Done v s2).
Proof.
  intros Hpre Hstmt Hv.
  assert (Hblock :
    Eval mapRange builtins hashString (S n) (ast.BlockStatement (pre ++ [stmt]))
        env s
    = Done v s2).
  { rewrite Eval_S. unfold EvalNode, evalBlockStatement.
    rewrite (evalBlockStatementFrom_passes _ _ _ _ _ _ _ _ Hpre).
    cbn [evalBlockStatementFrom].
    rewrite (bind_Done _ _ _ _ _ Hstmt).
    unfold continues in Hv.
    destruct (object.Type' v) as [t|] eqn:Ht; [|discriminate].
    rewrite (bind_Done _ _ _ _ _ (typeOf_Some _ _ _ Ht)).
    apply negb_true_iff in Hv. rewrite Hv. reflexivity. }
  assert (Hproceeds : forall x, continues x = true -> proceeds x = true).
  { intros x Hx. destruct x; try reflexivity; discriminate. }
  split; [exact Hblock|]. split.
  - rewrite Eval_S. unfold EvalNode, evalProgram.
    assert (Hpre' : passes proceeds (Eval mapRange builtins hashString n) env pre s
                    = Some s1).
    { clear Hblock Hstmt. revert s Hpre.
      induction pre as [|a pre IH]; intros s Hpre; [exact Hpre|].
      cbn [passes] in *.
      destruct (Eval mapRange builtins hashString n a env s) as [x sx| |];
        try discriminate.
      destruct (continues x) eqn:Hx; [|discriminate].
      rewrite (Hproceeds x Hx). exact (IH sx Hpre). }
    rewrite (evalProgramFrom_passes _ _ _ _ _ _ _ _ Hpre').
    cbn [evalProgramFrom].
    rewrite (bind_Done _ _ _ _ _ Hstmt).
    pose proof (Hproceeds v Hv) as Hp.
    destruct v; try reflexivity; discriminate.
  - intros fn Parameters Env args s0 Henv. unfold applyFunction.
    rewrite (bind_Done _ _ _ _ _ Henv), (bind_Done _ _ _ _ _ Hblock).
    destruct v; try reflexivity; discriminate.
Qed.

(** X21.  Two string literals never compare equal: each evaluation of a
    literal makes a new String, and [==] on strings compares addresses.  So
    [==] on two string literals is [FALSE] and [!=] is [TRUE], whatever
    their texts, the same text included. *)
Theorem string_literals_are_never_equal (n : nat) (a b : string) (env : N)
    (s : State) :
  Eval mapRange builtins hashString (S (S n))
      (ast.InfixExpression (ast.StringLiteral a) "==" (ast.StringLiteral b)) env s
    = Done FALSE (allocated (allocated s))
  /\ Eval mapRange builtins hashString (S (S n))
         (ast.InfixExpression (ast.StringLiteral a) "!=" (ast.StringLiteral b))
         env s
     = Done TRUE (allocated (allocated s)).
Proof.
  assert (Hne : N.eqb (next s) (N.succ (next s)) = false)
    by (apply N.eqb_neq; lia).
  split; rewrite Eval_S; unfold EvalNode;
    rewrite (bind_Done _ _ s (allocated s) (object.String (next s) a))
      by reflexivity;
    change (isError (object.String (next s) a)) with false; cbv iota;
    rewrite (bind_Done _ _ (allocated s) (allocated (allocated s))
               (object.String (N.succ (next s)) b)) by reflexivity;
    change (isError (object.String (N.succ (next s)) b)) with false; cbv iota;
    unfold evalInfixExpression;
    rewrite (bind_Done _ _ _ _ object.STRING_OBJ) by reflexivity;
    rewrite (bind_Done _ _ _ _ object.STRING_OBJ) by reflexivity;
    cbn [object.same]; rewrite Hne; reflexivity.
Qed.

End LastStatement.

(** [1; 2] gives the 2. *)
Lemma last_statement_is_the_result_witness :
  run sourceOrder 3
    (ast.Program
       [ast.ExpressionStatement (ast.IntegerLiteral 1);
        ast.ExpressionStatement (ast.IntegerLiteral 2)])
  = Done (object.Integer 2 2) (mkState (heap initial) 3).
Proof.
  exact (proj1 (proj2
           (last_statement_is_the_result sourceOrder noBuiltins codeSum 2 0%N
              [ast.ExpressionStatement (ast.IntegerLiteral 1)]
              (ast.ExpressionStatement (ast.IntegerLiteral 2))
              (object.Integer 2 2) initial (allocated initial)
              (mkState (heap initial) 3) eq_refl eq_refl eq_refl))).
Defined.
